(** * Windows Prefetch analyzer: MAM/LZNT1 decoding, record parsing, aggregation

    A shallow embedding of [src/analyzers/prefetch_analyzer.py]
    (class [PrefetchAnalyzer]) together with the properties its specification
    states about it.

    Conventions of the embedding:
    - a Python [bytes] object is a [list byte]; a byte's integer value is
      [byte_val];
    - Python integers are [Z]; positions and lengths, which never go negative
      in this code, are [nat];
    - a Python call either returns or raises: [outcome] records which, and has
      a third case for the loops that are run on fuel;
    - a [datetime] is the number of microseconds elapsed since
      1601-01-01T00:00:00 (the [epoch] of [_filetime_to_datetime]);
    - the dictionary [self.programs] is a [gmap string ProgramAggregate]. *)

From Stdlib Require Import ZArith Lia Ascii String.
From Stdlib.Strings Require Byte.
From stdpp Require Import gmap strings list.

Local Open Scope Z_scope.

Abbreviation byte := Byte.byte.

(** ** Outcomes of a Python call *)

Inductive outcome (A : Type) : Type :=
| Done (a : A)      (* the call returned [a] *)
| Raised            (* the call raised an exception *)
| OutOfFuel.        (* the fuel given to a loop did not suffice *)

Arguments Done {A} a.
Arguments Raised {A}.
Arguments OutOfFuel {A}.

Definition bind {A B : Type} (m : outcome A) (k : A -> outcome B) : outcome B :=
  match m with
  | Done a => k a
  | Raised => Raised
  | OutOfFuel => OutOfFuel
  end.

Notation "'let*' x ':=' m 'in' k" := (bind m (fun x => k))
  (at level 10, x name, m at level 100, k at level 200, only parsing).
Notation "'let*' ' p ':=' m 'in' k" := (bind m (fun p => k))
  (at level 10, p strict pattern, m at level 100, k at level 200,
   only parsing).

(** [try: body / except Exception: return handler] *)
Definition try_except {A : Type} (body : outcome A) (handler : A) : outcome A :=
  match body with
  | Done a => Done a
  | Raised => Done handler
  | OutOfFuel => OutOfFuel
  end.

(** ** Bytes *)

Definition byte_val (b : byte) : Z := Z.of_N (Byte.to_N b).

#[global] Instance byte_eq_decision : EqDecision byte := Byte.byte_eq_dec.

(** [data[a:b]] for [0 <= a], [0 <= b] *)
Definition slice (data : list byte) (a b : nat) : list byte :=
  take (b - a) (drop a data).

(** [data[i]], raising [IndexError] out of range *)
Definition byte_at (data : list byte) (i : nat) : outcome byte :=
  match data !! i with
  | Some b => Done b
  | None => Raised
  end.

(** Little-endian value of a byte string. *)
Definition le_value (bs : list byte) : Z :=
  foldr (fun b acc => byte_val b + 256 * acc) 0 bs.

(** [struct.unpack('<H' | '<I' | '<Q', bs)[0]]: raises [struct.error] unless
    the buffer has exactly the width of the format. *)
Definition struct_unpack (width : nat) (bs : list byte) : outcome Z :=
  if decide (length bs = width) then Done (le_value bs) else Raised.

(** ** LZNT1 decompression engine ([_lznt1_decompress]) *)

Module LZNT1.

(** Lines 327-342: the bit split of a back-reference token. *)
Definition max_bits (output_size : nat) : Z :=
  if Z.of_nat output_size <? 0x10 then 4
  else if Z.of_nat output_size <? 0x20 then 5
  else if Z.of_nat output_size <? 0x1000 then 6
  else 12.

Definition length_bits (output_size : nat) : Z := 16 - max_bits output_size.

Definition length_mask (output_size : nat) : Z :=
  Z.shiftl 1 (length_bits output_size) - 1.

Definition match_length (output_size : nat) (token : Z) : Z :=
  Z.land token (length_mask output_size) + 3.

Definition match_distance (output_size : nat) (token : Z) : Z :=
  Z.shiftr token (length_bits output_size) + 1.

(** Lines 351-356: one turn of the byte-by-byte copy.  The state is the read
    cursor [start_pos] and the output; the [else] branch is the in-loop
    zero padding. *)
Definition copy_step (st : nat * list byte) : nat * list byte :=
  let '(start_pos, output) := st in
  match output !! start_pos with
  | Some b => (S start_pos, output ++ [b])
  | None => (start_pos, output ++ [Byte.x00])
  end.

Definition copy_from_window (n : nat) (st : nat * list byte) : nat * list byte :=
  Nat.iter n copy_step st.

(** Lines 345-356. *)
Definition backref (output : list byte) (token : Z) : list byte :=
  let match_length := Z.to_nat (match_length (length output) token) in
  let match_distance := Z.to_nat (match_distance (length output) token) in
  if decide (length output < match_distance)%nat
  then output ++ replicate match_length Byte.x00
  else snd (copy_from_window match_length
              (length output - match_distance, output)%nat).

(** Lines 311-363: [for bit in range(8)], with its five [break]s. *)
Fixpoint token_loop (data : list byte) (uncompressed_size chunk_end : nat)
    (flag_byte : Z) (bits : list Z) (pos : nat) (output : list byte)
    : outcome (nat * list byte) :=
  match bits with
  | [] => Done (pos, output)
  | bit :: bits' =>
    if decide (uncompressed_size <= length output)%nat then Done (pos, output)
    else if decide (chunk_end <= pos)%nat then Done (pos, output)
    else if negb (Z.land flag_byte (Z.shiftl 1 bit) =? 0) then
      if decide (length data < pos + 2)%nat then Done (pos, output)
      else
        let* token := struct_unpack 2 (slice data pos (pos + 2)) in
        token_loop data uncompressed_size chunk_end flag_byte bits'
                   (pos + 2)%nat (backref output token)
    else
      if decide (length data <= pos)%nat then Done (pos, output)
      else
        let* b := byte_at data pos in
        token_loop data uncompressed_size chunk_end flag_byte bits'
                   (pos + 1)%nat (output ++ [b])
  end.

(** Lines 302-363: the loop over the flag groups of a compressed chunk. *)
Fixpoint chunk_loop (fuel : nat) (data : list byte)
    (uncompressed_size chunk_end : nat) (pos : nat) (output : list byte)
    : outcome (nat * list byte) :=
  if decide (pos < chunk_end ∧ length output < uncompressed_size)%nat then
    if decide (length data <= pos)%nat then Done (pos, output)
    else
      match fuel with
      | O => OutOfFuel
      | S fuel' =>
        let* flag_byte := byte_at data pos in
        let* '(pos', output') :=
          token_loop data uncompressed_size chunk_end (byte_val flag_byte)
                     (seqZ 0 8) (pos + 1)%nat output in
        chunk_loop fuel' data uncompressed_size chunk_end pos' output'
      end
  else Done (pos, output).

(** Lines 279-363: the loop over the chunks. *)
Fixpoint stream_loop (fuel : nat) (data : list byte) (uncompressed_size : nat)
    (pos : nat) (output : list byte) : outcome (list byte) :=
  if decide (pos < length data ∧ length output < uncompressed_size)%nat then
    if decide (length data < pos + 2)%nat then Done output
    else
      match fuel with
      | O => OutOfFuel
      | S fuel' =>
        let* chunk_header := struct_unpack 2 (slice data pos (pos + 2)) in
        let pos := (pos + 2)%nat in
        if chunk_header =? 0 then Done output
        else
          let chunk_size := Z.land chunk_header 0x0FFF + 1 in
          let is_compressed := negb (Z.land chunk_header 0x8000 =? 0) in
          let chunk_end := (pos + Z.to_nat chunk_size)%nat in
          if negb is_compressed then
            stream_loop fuel' data uncompressed_size chunk_end
                        (output ++ slice data pos chunk_end)
          else
            let* '(pos', output') :=
              chunk_loop (length data) data uncompressed_size chunk_end
                         pos output in
            stream_loop fuel' data uncompressed_size pos' output'
      end
  else Done output.

(** Lines 275-369.  [None] is Python's [None], returned by the handler. *)
Definition _lznt1_decompress (compressed_data : list byte)
    (uncompressed_size : nat) : outcome (option (list byte)) :=
  try_except
    (let* output := stream_loop (length compressed_data) compressed_data
                          uncompressed_size 0%nat [] in
     Done (Some (take uncompressed_size output)))
    None.

End LZNT1.

(** ** FILETIME conversion ([_filetime_to_datetime]) *)

(** Microseconds since 1601-01-01T00:00:00. *)
Definition datetime : Type := Z.

Module Filetime.

(** Quotient [a / b] rounded to the nearest integer, ties to even
    ([0 < b]). *)
Definition rne_div (a b : Z) : Z :=
  let q := a / b in
  let r := a mod b in
  if 2 * r <? b then q
  else if b <? 2 * r then q + 1
  else if Z.even q then q else q + 1.

(** [floor (log2 (filetime / 10))] for [0 < filetime]. *)
Definition binade (filetime : Z) : Z :=
  let l := Z.log2 filetime in
  if 10 * 2 ^ l <=? 8 * filetime then l - 3 else l - 4.

(** [filetime / 10] is Python's true division of two integers: the IEEE 754
    double nearest to the quotient (ties to even).  The double is returned
    as [(m, e)], standing for [m * 2 ^ e], with a 53-bit [m]. *)
Definition truediv10 (filetime : Z) : Z * Z :=
  let e := binade filetime - 52 in
  if 0 <=? e then (rne_div filetime (10 * 2 ^ e), e)
  else (rne_div (filetime * 2 ^ (- e)) 10, e).

(** [timedelta(microseconds=x)] for a float [x]: [x] rounded to a whole
    number of microseconds, ties to even. *)
Definition timedelta_microseconds (x : Z * Z) : Z :=
  let '(m, e) := x in
  if 0 <=? e then m * 2 ^ e else rne_div m (2 ^ (- e)).

(** [datetime.max - datetime(1601, 1, 1)], in microseconds:
    3067670 days, 86399 seconds, 999999 microseconds. *)
Definition MAX_DELTA : Z := 265046774399999999.

(** [epoch + delta], raising [OverflowError] beyond [datetime.max]. *)
Definition epoch_plus (delta : Z) : outcome datetime :=
  if delta <=? MAX_DELTA then Done delta else Raised.

(** Lines 523-534. *)
Definition _filetime_to_datetime (filetime : Z) : outcome (option datetime) :=
  if filetime =? 0 then Done None
  else
    try_except
      (let delta := timedelta_microseconds (truediv10 filetime) in
       let* t := epoch_plus delta in
       Done (Some t))
      None.

End Filetime.

(** ** Records *)

(** A [Path]: [pf_path.name], [str(pf_path)], and what
    [open(pf_path, 'rb').read()] gives ([None] when it raises [OSError]). *)
Record PfPath : Type := {
  path_name : string;
  path_str : string;
  path_read : option (list byte)
}.

(** The dictionary built by the [_parse_version_*] functions. *)
Record PrefetchRecord : Type := {
  pf_filename : string;
  pf_version : Z;
  pf_version_name : string;
  pf_executable_name : string;
  pf_prefetch_hash : string;
  pf_run_count : Z;
  pf_last_execution : option datetime;
  pf_execution_times : list datetime;
  pf_file_path : string
}.

(** An entry of [self.execution_timeline]. *)
Record TimelineEntry : Type := {
  tl_timestamp : datetime;
  tl_executable : string;
  tl_prefetch_file : string;
  tl_type : string
}.

(** A value of [self.programs]. *)
Record ProgramAggregate : Type := {
  prog_name : string;
  prog_run_count : Z;
  prog_last_execution : option datetime;
  prog_first_execution : option datetime;
  prog_execution_times : list datetime;
  prog_prefetch_files : list string;
  prog_version : Z
}.

(** The mutable attributes of a [PrefetchAnalyzer]. *)
Record Analyzer : Type := {
  prefetch_files : list PrefetchRecord;
  execution_timeline : list TimelineEntry;
  programs : gmap string ProgramAggregate;
  compressed_count : Z;
  decompression_failed : list string
}.

(** [__init__] *)
Definition init : Analyzer := {|
  prefetch_files := [];
  execution_timeline := [];
  programs := ∅;
  compressed_count := 0;
  decompression_failed := []
|}.

Definition PREFETCH_VERSIONS : gmap Z string :=
  <[17 := "Windows XP/2003"%string]>
    (<[23 := "Windows Vista/7"%string]>
      (<[26 := "Windows 8.1"%string]>
        (<[30 := "Windows 10/11"%string]> ∅))).

(** [d[k]], raising [KeyError] for a missing key *)
Definition getitem {V : Type} (d : gmap Z V) (k : Z) : outcome V :=
  match d !! k with
  | Some v => Done v
  | None => Raised
  end.

(** [b'MAM\x04'] *)
Definition MAM_SIGNATURE : list byte := [Byte.x4d; Byte.x41; Byte.x4d; Byte.x04].

(** Truth value of a [bytes]-or-[None] value. *)
Definition truthy (data : option (list byte)) : bool :=
  match data with
  | Some (_ :: _) => true
  | _ => false
  end.

(** ** MAM container ([_decompress_mam]), lines 232-260 *)

Definition _decompress_mam (compressed_data : list byte)
    : outcome (option (list byte)) :=
  try_except
    (if decide (take 4 compressed_data ≠ MAM_SIGNATURE) then Done None
     else
       let* uncompressed_size := struct_unpack 4 (slice compressed_data 4 8) in
       let compressed_payload := drop 8 compressed_data in
       let* decompressed :=
         LZNT1._lznt1_decompress compressed_payload (Z.to_nat uncompressed_size) in
       if truthy decompressed
          && bool_decide (Z.of_nat (length (default [] decompressed))
                          = uncompressed_size)
       then Done decompressed
       else Done None)
    None.

(** ** Formatting *)

Definition hex_digit (d : Z) : ascii :=
  if d <? 10 then ascii_of_nat (Z.to_nat (48 + d))
  else ascii_of_nat (Z.to_nat (55 + d)).

Fixpoint hex_digits (fuel : nat) (n : Z) (acc : string) : string :=
  match fuel with
  | O => acc
  | S fuel' =>
    let acc' := String (hex_digit (n mod 16)) acc in
    if n / 16 =? 0 then acc' else hex_digits fuel' (n / 16) acc'
  end.

Fixpoint zeros (n : nat) (s : string) : string :=
  match n with
  | O => s
  | S n' => String "0" (zeros n' s)
  end.

(** [s.zfill(width)] for a string of digits *)
Definition zfill (width : nat) (s : string) : string :=
  zeros (width - String.length s) s.

(** [f'{n:08X}'] for [0 <= n] *)
Definition format_08X (n : Z) : string :=
  zfill 8 (hex_digits (S (Z.to_nat (Z.log2 n))) n "").

(** [s.rstrip('\x00')] *)
Fixpoint rstrip_nul (s : string) : string :=
  match s with
  | EmptyString => EmptyString
  | String c s' =>
    match rstrip_nul s' with
    | EmptyString => if decide (c = "000"%char) then EmptyString
                     else String c EmptyString
    | r => String c r
    end
  end.

(** ** Record parser and aggregator *)

Section Analyzer.

(** [bytes.decode('utf-16-le', errors='ignore')], the codec of Python's
    standard library. *)
Variable decode_utf16le : list byte -> string.

Import Filetime.

(** Lines 378-380 (and the same lines of the other three layouts). *)
Definition exec_name_of (data : list byte) : string :=
  let executable_name_offset := 0x10%nat in
  let executable_name_length := 60%nat in
  let exec_name_raw :=
    slice data executable_name_offset
          (executable_name_offset + executable_name_length) in
  rstrip_nul (decode_utf16le exec_name_raw).

(** Lines 371-405. *)
Definition _parse_version_17 (data : list byte) (pf_path : PfPath)
    : outcome (option PrefetchRecord) :=
  try_except
    (let exec_name := exec_name_of data in
     let* prefetch_hash := struct_unpack 4 (slice data 0x4C 0x50) in
     let* run_count := struct_unpack 4 (slice data 0x90 0x94) in
     let* last_exec_time := struct_unpack 8 (slice data 0x78 0x80) in
     let* last_exec_datetime := _filetime_to_datetime last_exec_time in
     let* version_name := getitem PREFETCH_VERSIONS 17 in
     Done (Some {|
       pf_filename := path_name pf_path;
       pf_version := 17;
       pf_version_name := version_name;
       pf_executable_name := exec_name;
       pf_prefetch_hash := format_08X prefetch_hash;
       pf_run_count := run_count;
       pf_last_execution := last_exec_datetime;
       pf_execution_times :=
         match last_exec_datetime with Some t => [t] | None => [] end;
       pf_file_path := path_str pf_path
     |}))
    None.

(** Lines 407-437. *)
Definition _parse_version_23 (data : list byte) (pf_path : PfPath)
    : outcome (option PrefetchRecord) :=
  try_except
    (let exec_name := exec_name_of data in
     let* prefetch_hash := struct_unpack 4 (slice data 0x4C 0x50) in
     let* run_count := struct_unpack 4 (slice data 0x98 0x9C) in
     let* last_exec_time := struct_unpack 8 (slice data 0x80 0x88) in
     let* last_exec_datetime := _filetime_to_datetime last_exec_time in
     let* version_name := getitem PREFETCH_VERSIONS 23 in
     Done (Some {|
       pf_filename := path_name pf_path;
       pf_version := 23;
       pf_version_name := version_name;
       pf_executable_name := exec_name;
       pf_prefetch_hash := format_08X prefetch_hash;
       pf_run_count := run_count;
       pf_last_execution := last_exec_datetime;
       pf_execution_times :=
         match last_exec_datetime with Some t => [t] | None => [] end;
       pf_file_path := path_str pf_path
     |}))
    None.

(** Lines 453-462 (and 495-504): [for i in range(8)] with its inner
    [try]/[except: break]. *)
Fixpoint execution_times_loop (data : list byte) (range : list nat)
    (execution_times : list datetime) : outcome (list datetime) :=
  match range with
  | [] => Done execution_times
  | i :: range' =>
    let offset := (0x80 + i * 8)%nat in
    match
      (let* exec_time := struct_unpack 8 (slice data offset (offset + 8)) in
       let* exec_datetime := _filetime_to_datetime exec_time in
       Done match exec_datetime with
            | Some t => execution_times ++ [t]
            | None => execution_times
            end)
    with
    | Done execution_times' => execution_times_loop data range' execution_times'
    | Raised => Done execution_times
    | OutOfFuel => OutOfFuel
    end
  end.

(** The body shared, line for line, by [_parse_version_26] and
    [_parse_version_30]. *)
Definition parse_multi (version : Z) (data : list byte) (pf_path : PfPath)
    : outcome (option PrefetchRecord) :=
  try_except
    (let exec_name := exec_name_of data in
     let* prefetch_hash := struct_unpack 4 (slice data 0x4C 0x50) in
     let* run_count := struct_unpack 4 (slice data 0xD0 0xD4) in
     let* execution_times := execution_times_loop data (seq 0 8) [] in
     let last_exec := head execution_times in
     let* version_name := getitem PREFETCH_VERSIONS version in
     Done (Some {|
       pf_filename := path_name pf_path;
       pf_version := version;
       pf_version_name := version_name;
       pf_executable_name := exec_name;
       pf_prefetch_hash := format_08X prefetch_hash;
       pf_run_count := run_count;
       pf_last_execution := last_exec;
       pf_execution_times := execution_times;
       pf_file_path := path_str pf_path
     |}))
    None.

(** Lines 439-479. *)
Definition _parse_version_26 := parse_multi 26.

(** Lines 481-521. *)
Definition _parse_version_30 := parse_multi 30.

(** Lines 194-213: version check and dispatch. *)
Definition parse_header (data : list byte) (pf_path : PfPath)
    : outcome (option PrefetchRecord) :=
  if decide (length data < 4)%nat then Done None
  else
    let* version := struct_unpack 4 (slice data 0 4) in
    if decide (PREFETCH_VERSIONS !! version = None) then Done None
    else if version =? 17 then _parse_version_17 data pf_path
    else if version =? 23 then _parse_version_23 data pf_path
    else if version =? 26 then _parse_version_26 data pf_path
    else if version =? 30 then _parse_version_30 data pf_path
    else Done None.

Definition count_compressed (self : Analyzer) : Analyzer :=
  {| prefetch_files := prefetch_files self;
     execution_timeline := execution_timeline self;
     programs := programs self;
     compressed_count := compressed_count self + 1;
     decompression_failed := decompression_failed self |}.

Definition record_failure (self : Analyzer) (name : string) : Analyzer :=
  {| prefetch_files := prefetch_files self;
     execution_timeline := execution_timeline self;
     programs := programs self;
     compressed_count := compressed_count self;
     decompression_failed := decompression_failed self ++ [name] |}.

(** Lines 166-217.  The analyzer is threaded through; an exception in the
    body is turned into [None] by the handler and keeps the updates made
    before it. *)
Definition _parse_prefetch_file (self : Analyzer) (pf_path : PfPath)
    : outcome (option PrefetchRecord) * Analyzer :=
  match path_read pf_path with
  | Some data =>
    if decide (take 4 data = MAM_SIGNATURE) then
      let self := count_compressed self in
      match _decompress_mam data with
      | Done data =>
        if negb (truthy data)
        then (Done None, record_failure self (path_name pf_path))
        else (try_except (parse_header (default [] data) pf_path) None, self)
      | Raised => (Done None, self)
      | OutOfFuel => (OutOfFuel, self)
      end
    else (try_except (parse_header data pf_path) None, self)
  | None => (Done None, self)
  end.

(** Lines 536-545. *)
Definition _add_to_timeline (self : Analyzer) (pf_data : PrefetchRecord)
    : Analyzer :=
  {| prefetch_files := prefetch_files self;
     execution_timeline :=
       foldl (fun timeline exec_time =>
                timeline ++ [{| tl_timestamp := exec_time;
                                tl_executable := pf_executable_name pf_data;
                                tl_prefetch_file := pf_filename pf_data;
                                tl_type := "execution" |}])
             (execution_timeline self) (pf_execution_times pf_data);
     programs := programs self;
     compressed_count := compressed_count self;
     decompression_failed := decompression_failed self |}.

(** [min(l)] and [max(l)] of a list [t :: ts]. *)
Definition py_min (t : datetime) (ts : list datetime) : datetime :=
  foldl Z.min t ts.
Definition py_max (t : datetime) (ts : list datetime) : datetime :=
  foldl Z.max t ts.

(** Lines 572-574. *)
Definition merge_times (old new : list datetime) : list datetime :=
  foldl (fun times exec_time =>
           if decide (exec_time ∈ times) then times else times ++ [exec_time])
        old new.

(** Lines 552-564: first sighting of an executable name. *)
Definition new_program (pf_data : PrefetchRecord) : ProgramAggregate :=
  {| prog_name := pf_executable_name pf_data;
     prog_run_count := pf_run_count pf_data;
     prog_last_execution := pf_last_execution pf_data;
     prog_first_execution :=
       match pf_execution_times pf_data with
       | [] => None
       | t :: ts => Some (py_min t ts)
       end;
     prog_execution_times := pf_execution_times pf_data;
     prog_prefetch_files := [pf_filename pf_data];
     prog_version := pf_version pf_data |}.

(** Lines 567-579: a later sighting. *)
Definition update_program (prog : ProgramAggregate) (pf_data : PrefetchRecord)
    : ProgramAggregate :=
  let times := merge_times (prog_execution_times prog)
                           (pf_execution_times pf_data) in
  {| prog_name := prog_name prog;
     prog_run_count := Z.max (prog_run_count prog) (pf_run_count pf_data);
     prog_last_execution :=
       match times with
       | [] => prog_last_execution prog
       | t :: ts => Some (py_max t ts)
       end;
     prog_first_execution :=
       match times with
       | [] => prog_first_execution prog
       | t :: ts => Some (py_min t ts)
       end;
     prog_execution_times := times;
     prog_prefetch_files := prog_prefetch_files prog ++ [pf_filename pf_data];
     prog_version := prog_version prog |}.

(** Lines 547-579, on the dictionary [self.programs]. *)
Definition add_program (progs : gmap string ProgramAggregate)
    (pf_data : PrefetchRecord) : gmap string ProgramAggregate :=
  let exec_name := pf_executable_name pf_data in
  match progs !! exec_name with
  | None => <[exec_name := new_program pf_data]> progs
  | Some prog => <[exec_name := update_program prog pf_data]> progs
  end.

Definition _add_to_programs (self : Analyzer) (pf_data : PrefetchRecord)
    : Analyzer :=
  {| prefetch_files := prefetch_files self;
     execution_timeline := execution_timeline self;
     programs := add_program (programs self) pf_data;
     compressed_count := compressed_count self;
     decompression_failed := decompression_failed self |}.

Definition append_record (self : Analyzer) (pf_data : PrefetchRecord)
    : Analyzer :=
  {| prefetch_files := prefetch_files self ++ [pf_data];
     execution_timeline := execution_timeline self;
     programs := programs self;
     compressed_count := compressed_count self;
     decompression_failed := decompression_failed self |}.

(** Lines 120-132: the body of the loop over the files, with its
    [except Exception: continue]. *)
Definition analyze_file (self : Analyzer) (pf_file : PfPath)
    : outcome unit * Analyzer :=
  let '(pf_data, self) := _parse_prefetch_file self pf_file in
  match pf_data with
  | Done (Some pf_data) =>
    (Done tt,
     _add_to_programs (_add_to_timeline (append_record self pf_data) pf_data)
                      pf_data)
  | Done None => (Done tt, self)
  | Raised => (Done tt, self)
  | OutOfFuel => (OutOfFuel, self)
  end.

(** Lines 119-132. *)
Fixpoint analyze_files (self : Analyzer) (pf_files : list PfPath)
    : outcome unit * Analyzer :=
  match pf_files with
  | [] => (Done tt, self)
  | pf_file :: pf_files' =>
    match analyze_file self pf_file with
    | (Done _, self) => analyze_files self pf_files'
    | r => r
    end
  end.

(** [list.sort(key=lambda x: x['timestamp'], reverse=True)]: stable,
    descending. *)
Fixpoint insert_desc (x : TimelineEntry) (l : list TimelineEntry)
    : list TimelineEntry :=
  match l with
  | [] => [x]
  | y :: l' =>
    if tl_timestamp x <? tl_timestamp y then y :: insert_desc x l'
    else x :: l
  end.

Definition sort_timeline (l : list TimelineEntry) : list TimelineEntry :=
  foldr insert_desc [] l.

(** Lines 108-153, from the list [pf_files] that [find_prefetch_files]
    returned. *)
Definition analyze (self : Analyzer) (pf_files : list PfPath)
    : outcome (gmap string ProgramAggregate) * Analyzer :=
  match pf_files with
  | [] => (Done ∅, self)
  | _ =>
    match analyze_files self pf_files with
    | (Done _, self) =>
      let self :=
        {| prefetch_files := prefetch_files self;
           execution_timeline := sort_timeline (execution_timeline self);
           programs := programs self;
           compressed_count := compressed_count self;
           decompression_failed := decompression_failed self |} in
      (Done (programs self), self)
    | (Raised, self) => (Raised, self)
    | (OutOfFuel, self) => (OutOfFuel, self)
    end
  end.

End Analyzer.

(** ** The token split as the specification words it *)

(** Number of length bits as a function of the output size, following the
    specification's table: [<0x10] gives 4, [<0x20] gives 5, [<0x1000] gives
    6, otherwise 12. *)
Definition spec_length_bits (output_size : nat) : Z :=
  if Z.of_nat output_size <? 0x10 then 4
  else if Z.of_nat output_size <? 0x20 then 5
  else if Z.of_nat output_size <? 0x1000 then 6
  else 12.

(** The split the specification states, for every 16-bit token. *)
Definition spec_token_split : Prop :=
  forall (output_size : nat) (token : Z), 0 <= token < 65536 ->
    LZNT1.match_length output_size token
      = Z.land token (Z.shiftl 1 (spec_length_bits output_size) - 1) + 3
    /\ LZNT1.match_distance output_size token
      = Z.shiftr token (spec_length_bits output_size) + 1.

(** ** The FILETIME conversion as the specification words it *)

(** The whole number of microseconds that
    [timedelta(microseconds=filetime / 10)] holds. *)
Definition usec (filetime : Z) : Z :=
  Filetime.timedelta_microseconds (Filetime.truediv10 filetime).


(** ** Shape of a parsed record *)

(** What the four layout parsers guarantee of the dictionary they build:
    [last_execution] is the first execution time if there is one, the file
    names are those of the path, and the version is a key of
    [PREFETCH_VERSIONS] with its name. *)
Definition record_ok (pf_path : PfPath) (r : PrefetchRecord) : Prop :=
  pf_last_execution r = head (pf_execution_times r)
  /\ pf_filename r = path_name pf_path
  /\ pf_file_path r = path_str pf_path
  /\ PREFETCH_VERSIONS !! pf_version r = Some (pf_version_name r)
  /\ (length (pf_execution_times r) <= 8)%nat.

(** ** Failure accounting as the specification words it *)

(** Every file that yields no record leaves a trace in the analyzer. *)
Definition spec_failures_counted (decode : list byte -> string) : Prop :=
  forall (self : Analyzer) (pf_path : PfPath),
    fst (_parse_prefetch_file decode self pf_path) = Done None ->
    snd (analyze_file decode self pf_path) <> self.

(** ** Bounds of a list of times *)

(** [max(l)] and [min(l)] of a list that may be empty ([None] for [[]],
    where the source does not call them). *)
Definition times_max (l : list datetime) : option datetime :=
  match l with
  | [] => None
  | t :: ts => Some (py_max t ts)
  end.

Definition times_min (l : list datetime) : option datetime :=
  match l with
  | [] => None
  | t :: ts => Some (py_min t ts)
  end.

(** ** Concrete inputs *)

(** A compressed chunk (header [0x8003]) holding the flag byte [0x02], the
    literal ['A'] and the back-reference token [0x0010]. *)
Definition run_payload : list byte :=
  [Byte.x03; Byte.x80; Byte.x02; Byte.x41; Byte.x10; Byte.x00].

(** [struct.pack('<B', n % 256)] and little-endian packing on [width]
    bytes, to write down input buffers. *)
Definition byte_of (n : Z) : byte :=
  default Byte.x00 (Byte.of_N (Z.to_N (n mod 256))).

Fixpoint le_bytes (width : nat) (n : Z) : list byte :=
  match width with
  | O => []
  | S w => byte_of n :: le_bytes w (n / 256)
  end.

(** An uncompressed prefetch buffer of 0xD4 bytes in the layout of versions
    26 and 30: version, name window, hash, eight FILETIME slots, run count. *)
Definition multi_buffer (version : Z) (name : list byte) (hash : Z)
    (filetimes : list Z) (run_count : Z) : list byte :=
  le_bytes 4 version ++ replicate 12 Byte.x00
  ++ take 60 (name ++ replicate 60 Byte.x00)
  ++ le_bytes 4 hash ++ replicate 48 Byte.x00
  ++ take 64 (concat (map (le_bytes 8) filetimes) ++ replicate 64 Byte.x00)
  ++ replicate 16 Byte.x00
  ++ le_bytes 4 run_count.

(** A stand-in for the codec on concrete inputs: the low byte of every
    16-bit unit, as a character. *)
Fixpoint low_bytes (bs : list byte) : string :=
  match bs with
  | lo :: _ :: bs' => String (ascii_of_nat (Z.to_nat (byte_val lo))) (low_bytes bs')
  | _ => EmptyString
  end.

(** "A.EXE" in UTF-16LE. *)
Definition a_exe : list byte :=
  [Byte.x41; Byte.x00; Byte.x2e; Byte.x00; Byte.x45; Byte.x00;
   Byte.x58; Byte.x00; Byte.x45; Byte.x00].

Definition file_of (name : string) (data : list byte) : PfPath :=
  {| path_name := name; path_str := name; path_read := Some data |}.

(** A version-26 file whose first slot is older than its second. *)
Definition unsorted_file : PfPath :=
  file_of "A.EXE-1.pf" (multi_buffer 26 a_exe 0xABCD [100; 200] 5).

(** A second file for the same executable. *)
Definition later_file : PfPath :=
  file_of "A.EXE-2.pf" (multi_buffer 30 a_exe 0xABCD [400; 300] 7).

(** A MAM container declaring 1000 bytes whose stream holds one uncompressed
    chunk of 800 bytes and then the zero header. *)
Definition short_mam_file : PfPath :=
  file_of "SHORT.pf"
    (MAM_SIGNATURE ++ le_bytes 4 1000
     ++ [Byte.x1f; Byte.x03] ++ replicate 800 Byte.x41
     ++ [Byte.x00; Byte.x00]).

(** An uncompressed file stamped with version 99. *)
Definition unknown_version_file : PfPath :=
  file_of "V99.pf" (le_bytes 4 99 ++ replicate 0xD0 Byte.x00).

(** A version-17 file cut after its header word. *)
Definition truncated_file : PfPath :=
  file_of "CUT.pf" (le_bytes 4 17).

(** A file that cannot be read. *)
Definition unreadable_file : PfPath :=
  {| path_name := "GONE.pf"; path_str := "GONE.pf"; path_read := None |}.

(** What the parser returns for [unsorted_file] and for [later_file]. *)
Definition unsorted_record : PrefetchRecord :=
  {| pf_filename := "A.EXE-1.pf";
     pf_version := 26;
     pf_version_name := "Windows 8.1";
     pf_executable_name := "A.EXE";
     pf_prefetch_hash := "0000ABCD";
     pf_run_count := 5;
     pf_last_execution := Some 10;
     pf_execution_times := [10; 20];
     pf_file_path := "A.EXE-1.pf" |}.

Definition later_record : PrefetchRecord :=
  {| pf_filename := "A.EXE-2.pf";
     pf_version := 30;
     pf_version_name := "Windows 10/11";
     pf_executable_name := "A.EXE";
     pf_prefetch_hash := "0000ABCD";
     pf_run_count := 7;
     pf_last_execution := Some 40;
     pf_execution_times := [40; 30];
     pf_file_path := "A.EXE-2.pf" |}.

(** ** Statistics ([get_statistics], lines 638-649) *)

Record Statistics : Type := {
  total_programs : nat;
  total_prefetch_files : nat;
  compressed_files : Z;
  decompression_failures : nat;
  timeline_entries : nat
}.

Definition get_statistics (self : Analyzer) : Statistics :=
  {| total_programs := size (programs self);
     total_prefetch_files := length (prefetch_files self);
     compressed_files := compressed_count self;
     decompression_failures := length (decompression_failed self);
     timeline_entries := length (execution_timeline self) |}.

(** ** Writing LZNT1 streams *)

(** An uncompressed chunk holding [payload]: the header is the payload
    length minus one, with the compression bit clear. *)
Definition stored_chunk (payload : list byte) : list byte :=
  le_bytes 2 (Z.of_nat (length payload) - 1) ++ payload.

(** A compressed chunk made of one flag group whose flags are all zero,
    followed by the literal bytes [literals]. *)
Definition literal_chunk (literals : list byte) : list byte :=
  le_bytes 2 (0x8000 + Z.of_nat (length literals)) ++ Byte.x00 :: literals.

(** The FILETIME held by slot [i] of the multi-timestamp layouts, and its
    conversion; [None] when the slot cannot be read or converts to absent. *)
Definition slot_time (data : list byte) (i : nat) : option datetime :=
  match struct_unpack 8 (slice data (0x80 + i * 8) (0x80 + i * 8 + 8)) with
  | Done filetime =>
    match Filetime._filetime_to_datetime filetime with
    | Done t => t
    | _ => None
    end
  | _ => None
  end.

(** The timeline entry that [_add_to_timeline] builds for one execution
    time of a record. *)
Definition entry_of (pf_data : PrefetchRecord) (exec_time : datetime)
    : TimelineEntry :=
  {| tl_timestamp := exec_time;
     tl_executable := pf_executable_name pf_data;
     tl_prefetch_file := pf_filename pf_data;
     tl_type := "execution" |}.

(** A list of timeline entries in non-increasing order of timestamp. *)
Fixpoint descending (l : list TimelineEntry) : Prop :=
  match l with
  | [] => True
  | x :: l' =>
    (forall y, y ∈ l' -> tl_timestamp y <= tl_timestamp x) /\ descending l'
  end.

(** A MAM container that declares the length of [payload] and holds it as
    one uncompressed chunk. *)
Definition stored_mam (payload : list byte) : list byte :=
  MAM_SIGNATURE ++ le_bytes 4 (Z.of_nat (length payload)) ++ stored_chunk payload.

(** The number of bytes a buffer of the given version must have for its
    layout parser to read every fixed-offset field. *)
Definition required_length (version : Z) : nat :=
  if version =? 17 then 0x94
  else if version =? 23 then 0x9C
  else 0xD4.

(** Offset of the run count in the layout of a version. *)
Definition run_count_offset (version : Z) : nat :=
  if version =? 17 then 0x90
  else if version =? 23 then 0x98
  else 0xD0.

(** Reading a string of hexadecimal digits back as a number. *)
Definition hex_digit_value (c : ascii) : Z :=
  let n := Z.of_nat (nat_of_ascii c) in
  if n <? 58 then n - 48 else n - 55.

Fixpoint hex_value (acc : Z) (s : string) : Z :=
  match s with
  | EmptyString => acc
  | String c s' => hex_value (16 * acc + hex_digit_value c) s'
  end.

(** The string of [n] NUL characters. *)
Fixpoint nuls (n : nat) : string :=
  match n with
  | O => EmptyString
  | S n' => String "000"%char (nuls n')
  end.

(** The last character of a string, if any. *)
Fixpoint last_char (s : string) : option ascii :=
  match s with
  | EmptyString => None
  | String c EmptyString => Some c
  | String _ s' => last_char s'
  end.

(** ** What the analyzer holds after a run *)

(** The parsed records of one executable name, in the order of parsing. *)
Definition records_of (name : string) (l : list PrefetchRecord)
    : list PrefetchRecord :=
  filter (fun r => pf_executable_name r = name) l.

(** The timeline entries of a list of records, in the order of parsing. *)
Definition timeline_of (l : list PrefetchRecord) : list TimelineEntry :=
  l ≫= (fun r => entry_of r <$> pf_execution_times r).

(** The aggregate [p] sums up the records [rs] of the name [name]. *)
Definition summarises (p : ProgramAggregate) (name : string)
    (rs : list PrefetchRecord) : Prop :=
  prog_name p = name
  /\ prog_prefetch_files p = pf_filename <$> rs
  /\ head (pf_version <$> rs) = Some (prog_version p)
  /\ (forall t, t ∈ prog_execution_times p
                <-> exists r, r ∈ rs /\ t ∈ pf_execution_times r)
  /\ (forall r, r ∈ rs -> pf_run_count r <= prog_run_count p)
  /\ (exists r, r ∈ rs /\ prog_run_count p = pf_run_count r)
  /\ prog_first_execution p = times_min (prog_execution_times p)
  /\ (prog_last_execution p = None <-> prog_execution_times p = [])
  /\ (forall t, prog_last_execution p = Some t -> t ∈ prog_execution_times p)
  /\ ((2 <= length rs)%nat ->
      prog_last_execution p = times_max (prog_execution_times p)).

(** The timeline and the programs agree with the parsed records. *)
Definition consistent (self : Analyzer) : Prop :=
  execution_timeline self = timeline_of (prefetch_files self)
  /\ (forall r, r ∈ prefetch_files self ->
        pf_last_execution r = head (pf_execution_times r))
  /\ forall name,
       match programs self !! name with
       | None => records_of name (prefetch_files self) = []
       | Some p => summarises p name (records_of name (prefetch_files self))
       end.

(** * Properties *)

Import LZNT1.

(** ** Bytes and little-endian values *)

Lemma byte_val_range (b : byte) : 0 <= byte_val b < 256.
Proof.
  unfold byte_val. pose proof (Byte.to_N_bounded b). lia.
Qed.

Lemma le_value_range (bs : list byte) : 0 <= le_value bs < 256 ^ Z.of_nat (length bs).
Proof.
  induction bs as [|b bs IH]; simpl; [lia|].
  pose proof (byte_val_range b).
  rewrite Nat2Z.inj_succ, Z.pow_succ_r by lia. lia.
Qed.

Lemma slice_length (data : list byte) (a b : nat) :
  (b <= length data)%nat -> length (slice data a b) = (b - a)%nat.
Proof.
  intros H. unfold slice. rewrite length_take, length_drop. lia.
Qed.

Lemma struct_unpack_in_range (w : nat) (data : list byte) (pos : nat) :
  (pos + w <= length data)%nat ->
  struct_unpack w (slice data pos (pos + w)) = Done (le_value (slice data pos (pos + w))).
Proof.
  intros H. unfold struct_unpack.
  rewrite slice_length by lia.
  destruct (decide _); [done | lia].
Qed.

Lemma byte_at_in_range (data : list byte) (i : nat) :
  (i < length data)%nat -> exists b, data !! i = Some b /\ byte_at data i = Done b.
Proof.
  intros H. destruct (lookup_lt_is_Some_2 data i H) as [b Hb].
  exists b. unfold byte_at. by rewrite Hb.
Qed.

Lemma token_loop_done data n chunk_end flag bits pos output :
  exists pos' output',
    token_loop data n chunk_end flag bits pos output = Done (pos', output')
    /\ (pos <= pos')%nat.
Proof.
  revert pos output. induction bits as [|bit bits IH]; intros pos output; simpl.
  - eauto.
  - destruct (decide _); [eauto|].
    destruct (decide _); [eauto|].
    destruct (negb _).
    + destruct (decide _); [eauto|].
      rewrite struct_unpack_in_range by lia. simpl.
      destruct (IH (pos + 2)%nat (backref output (le_value (slice data pos (pos + 2)))))
        as (p & o & -> & Hp).
      exists p, o. split; [done | lia].
    + destruct (decide _); [eauto|].
      destruct (byte_at_in_range data pos) as (b & _ & ->); [lia|]. simpl.
      destruct (IH (pos + 1)%nat (output ++ [b])) as (p & o & -> & Hp).
      exists p, o. split; [done | lia].
Qed.

Lemma chunk_loop_eq fuel data n chunk_end pos output :
  chunk_loop fuel data n chunk_end pos output =
  if decide (pos < chunk_end ∧ length output < n)%nat then
    if decide (length data <= pos)%nat then Done (pos, output)
    else
      match fuel with
      | O => OutOfFuel
      | S fuel' =>
        let* flag_byte := byte_at data pos in
        let* '(pos', output') :=
          token_loop data n chunk_end (byte_val flag_byte)
                     (seqZ 0 8) (pos + 1)%nat output in
        chunk_loop fuel' data n chunk_end pos' output'
      end
  else Done (pos, output).
Proof. destruct fuel; reflexivity. Qed.

Lemma stream_loop_eq fuel data n pos output :
  stream_loop fuel data n pos output =
  if decide (pos < length data ∧ length output < n)%nat then
    if decide (length data < pos + 2)%nat then Done output
    else
      match fuel with
      | O => OutOfFuel
      | S fuel' =>
        let* chunk_header := struct_unpack 2 (slice data pos (pos + 2)) in
        let pos := (pos + 2)%nat in
        if chunk_header =? 0 then Done output
        else
          let chunk_size := Z.land chunk_header 0x0FFF + 1 in
          let is_compressed := negb (Z.land chunk_header 0x8000 =? 0) in
          let chunk_end := (pos + Z.to_nat chunk_size)%nat in
          if negb is_compressed then
            stream_loop fuel' data n chunk_end
                        (output ++ slice data pos chunk_end)
          else
            let* '(pos', output') :=
              chunk_loop (length data) data n chunk_end pos output in
            stream_loop fuel' data n pos' output'
      end
  else Done output.
Proof. destruct fuel; reflexivity. Qed.

Lemma chunk_loop_done data n chunk_end fuel pos output :
  (length data - pos <= fuel)%nat ->
  exists pos' output',
    chunk_loop fuel data n chunk_end pos output = Done (pos', output')
    /\ (pos <= pos')%nat.
Proof.
  revert pos output. induction fuel as [|fuel IH]; intros pos output Hfuel;
    rewrite chunk_loop_eq.
  - destruct (decide _); [|eauto]. destruct (decide _); [eauto|lia].
  - destruct (decide _); [|eauto]. destruct (decide _); [eauto|].
    destruct (byte_at_in_range data pos) as (b & _ & ->); [lia|].
    unfold bind at 1.
    destruct (token_loop_done data n chunk_end (byte_val b) (seqZ 0 8) (pos + 1) output)
      as (p & o & -> & Hp). unfold bind.
    destruct (IH p o) as (p' & o' & -> & Hp'); [lia|].
    exists p', o'. split; [done | lia].
Qed.

Lemma stream_loop_done data n fuel pos output :
  (length data - pos <= fuel)%nat ->
  exists output', stream_loop fuel data n pos output = Done output'.
Proof.
  revert pos output. induction fuel as [|fuel IH]; intros pos output Hfuel;
    rewrite stream_loop_eq.
  - destruct (decide _); [|eauto]. destruct (decide _); [eauto|lia].
  - destruct (decide _); [|eauto]. destruct (decide _); [eauto|].
    rewrite struct_unpack_in_range by lia. unfold bind at 1.
    destruct (_ =? 0); [eauto|]. cbv zeta.
    destruct (negb (negb _)).
    + apply IH. lia.
    + match goal with |- context [chunk_loop ?f ?d ?m ?ce ?p ?o] =>
        destruct (chunk_loop_done d m ce f p o) as (p' & o' & -> & Hp); [lia|]
      end.
      unfold bind. apply IH. lia.
Qed.

Lemma stream_loop_target_reached data n fuel pos output :
  (n <= length output)%nat -> stream_loop fuel data n pos output = Done output.
Proof.
  intros H. rewrite stream_loop_eq. destruct (decide _); [lia | done].
Qed.

Lemma chunk_loop_target_reached data n chunk_end fuel pos output :
  (n <= length output)%nat ->
  chunk_loop fuel data n chunk_end pos output = Done (pos, output).
Proof.
  intros H. rewrite chunk_loop_eq. destruct (decide _); [lia | done].
Qed.

(** ** The byte-by-byte copy of a back-reference *)

Lemma copy_from_window_S n st :
  copy_from_window (S n) st = copy_step (copy_from_window n st).
Proof. reflexivity. Qed.

(** While the read cursor starts inside the output, [k] turns of the copy
    advance it by [k], grow the output by [k] bytes and leave it inside. *)
Lemma copy_from_window_inv (k start_pos : nat) (output : list byte) :
  (start_pos < length output)%nat ->
  exists copied,
    copy_from_window k (start_pos, output) = ((start_pos + k)%nat, output ++ copied)
    /\ length copied = k
    /\ forall i, (i < k)%nat ->
         (output ++ copied) !! (length output + i)%nat
         = (output ++ copied) !! (start_pos + i)%nat.
Proof.
  intros Hlt. induction k as [|k IH].
  - exists []. rewrite app_nil_r, Nat.add_0_r.
    split; [done|]. split; [done|]. intros i Hi. lia.
  - destruct IH as (copied & Heq & Hlen & Hcopy).
    rewrite copy_from_window_S, Heq. unfold copy_step.
    destruct (lookup_lt_is_Some_2 (output ++ copied) (start_pos + k)) as [b Hb].
    { rewrite length_app. lia. }
    rewrite Hb. exists (copied ++ [b]).
    rewrite <- app_assoc, Nat.add_succ_r. split; [done|].
    split; [rewrite length_app; simpl; lia|].
    intros i Hi. rewrite !app_assoc.
    destruct (decide (i = k)) as [->|Hne].
    + rewrite lookup_app_r by (rewrite length_app; lia).
      replace (length output + k - length (output ++ copied))%nat with 0%nat
        by (rewrite length_app; lia).
      rewrite lookup_app_l by (rewrite length_app; lia).
      by rewrite Hb.
    + rewrite (lookup_app_l (output ++ copied) [b] (length output + i))
        by (rewrite length_app; lia).
      rewrite (lookup_app_l (output ++ copied) [b] (start_pos + i))
        by (rewrite length_app; lia).
      apply Hcopy. lia.
Qed.

Lemma match_distance_pos (output_size : nat) (token : Z) :
  0 <= token -> 1 <= match_distance output_size token.
Proof.
  intros H. unfold match_distance.
  pose proof (Z.shiftr_nonneg token (length_bits output_size)). lia.
Qed.

Lemma lznt1_decompress_done (compressed_data : list byte) (uncompressed_size : nat) :
  exists out,
    _lznt1_decompress compressed_data uncompressed_size = Done (Some out)
    /\ (length out <= uncompressed_size)%nat.
Proof.
  unfold _lznt1_decompress.
  destruct (stream_loop_done compressed_data uncompressed_size
              (length compressed_data) 0 []) as [out ->]; [lia|].
  cbn [bind try_except]. eexists; split; [done|]. rewrite length_take. lia.
Qed.

(** ** The LZNT1 engine: token split, termination, copy safety *)

Lemma length_bits_cases (output_size : nat) :
  length_bits output_size =
  if Z.of_nat output_size <? 0x10 then 12
  else if Z.of_nat output_size <? 0x20 then 11
  else if Z.of_nat output_size <? 0x1000 then 10
  else 4.
Proof.
  unfold length_bits, max_bits. repeat destruct (_ <? _); reflexivity.
Qed.

Lemma land_low_bits (token k : Z) :
  0 <= k -> Z.land token (Z.shiftl 1 k - 1) = token mod 2 ^ k.
Proof.
  intros Hk. rewrite Z.shiftl_1_l, <- Z.land_ones by lia.
  by rewrite Z.ones_equiv, Z.sub_1_r.
Qed.

(** One turn of the token loop on a flagged bit: the two bytes at the
    cursor are read as the token and handed, with the output as it is at
    that moment, to the back-reference copy. *)
Lemma token_loop_backref (data : list byte) (n chunk_end : nat) (flag_byte : Z)
    (bit : Z) (bits : list Z) (pos : nat) (output : list byte) (token : Z) :
  (length output < n)%nat -> (pos < chunk_end)%nat ->
  Z.land flag_byte (Z.shiftl 1 bit) <> 0 ->
  struct_unpack 2 (slice data pos (pos + 2)) = Done token ->
  token_loop data n chunk_end flag_byte (bit :: bits) pos output
  = token_loop data n chunk_end flag_byte bits (pos + 2)%nat
               (backref output token).
Proof.
  intros Hn Hc Hflag Htok. cbn [token_loop].
  destruct (decide _) as [|_]; [lia|].
  destruct (decide _) as [|_]; [lia|].
  destruct (Z.eqb_spec (Z.land flag_byte (Z.shiftl 1 bit)) 0) as [|_]; [done|].
  cbn [negb].
  destruct (decide _) as [Hshort|_].
  - unfold struct_unpack in Htok. destruct (decide _) as [Hl|]; [|done].
    unfold slice in Hl. rewrite length_take, length_drop in Hl. lia.
  - by rewrite Htok.
Qed.

(** C1 (as amended).  The bit split of a back-reference token is chosen by
    the output length at the moment the token is decoded, the other way round
    from the stated table: below 0x10 bytes of output the token has 12 length
    bits and 4 distance bits, below 0x20 it has 11 and 5, below 0x1000 it has
    10 and 6, and from 0x1000 on 4 and 12.  With
    [length_mask = (1 << length_bits) - 1], the match length is
    [(token & length_mask) + 3], that is the low [length_bits] bits plus 3,
    and the match distance is [(token >> length_bits) + 1], that is the
    remaining high bits plus 1.  The engine decodes with this split: on a
    flagged bit the token loop reads the token and copies with the output it
    has at that moment, and the copy appends exactly that match length, as
    zeros when that match distance exceeds the output length and otherwise
    each byte from that match distance back. *)
Theorem token_split_by_output_size (output_size : nat) (token : Z) :
  0 <= token < 65536 ->
  let lb := if Z.of_nat output_size <? 0x10 then 12
            else if Z.of_nat output_size <? 0x20 then 11
            else if Z.of_nat output_size <? 0x1000 then 10
            else 4 in
  length_bits output_size = lb
  /\ max_bits output_size = 16 - lb
  /\ length_mask output_size = Z.shiftl 1 lb - 1
  /\ match_length output_size token = Z.land token (Z.shiftl 1 lb - 1) + 3
  /\ match_distance output_size token = Z.shiftr token lb + 1
  /\ match_length output_size token = token mod 2 ^ lb + 3
  /\ match_distance output_size token = token / 2 ^ lb + 1
  /\ 3 <= match_length output_size token <= 2 ^ lb + 2
  /\ 1 <= match_distance output_size token <= 2 ^ (16 - lb)
  /\ (forall output : list byte,
        length output = output_size ->
        let n := Z.to_nat (Z.land token (Z.shiftl 1 lb - 1) + 3) in
        let d := Z.to_nat (Z.shiftr token lb + 1) in
        exists copied,
          backref output token = output ++ copied
          /\ length copied = n
          /\ ((length output < d)%nat -> copied = replicate n Byte.x00)
          /\ ((d <= length output)%nat ->
              forall i, (i < n)%nat ->
                (output ++ copied) !! (length output + i)%nat
                = (output ++ copied) !! (length output + i - d)%nat))
  /\ (forall (output data : list byte) (n chunk_end pos : nat)
             (flag_byte bit : Z) (bits : list Z),
        length output = output_size ->
        (length output < n)%nat -> (pos < chunk_end)%nat ->
        Z.land flag_byte (Z.shiftl 1 bit) <> 0 ->
        struct_unpack 2 (slice data pos (pos + 2)) = Done token ->
        token_loop data n chunk_end flag_byte (bit :: bits) pos output
        = token_loop data n chunk_end flag_byte bits (pos + 2)%nat
                     (backref output token)).
Proof.
  intros Htok lb.
  assert (Hlb : length_bits output_size = lb) by apply length_bits_cases.
  assert (Hrange : 0 <= lb <= 16 /\ 2 ^ lb * 2 ^ (16 - lb) = 65536).
  { subst lb. repeat destruct (_ <? _); split; (lia || reflexivity). }
  destruct Hrange as [Hrange Hpow].
  assert (Hp : 0 < 2 ^ lb) by (apply Z.pow_pos_nonneg; lia).
  assert (Hml : match_length output_size token
                = Z.land token (Z.shiftl 1 lb - 1) + 3).
  { unfold match_length, length_mask. by rewrite Hlb. }
  assert (Hmd : match_distance output_size token = Z.shiftr token lb + 1).
  { unfold match_distance. by rewrite Hlb. }
  pose proof (Z.mod_pos_bound token (2 ^ lb) Hp) as Hmod.
  assert (Hdiv : 0 <= token / 2 ^ lb < 2 ^ (16 - lb)).
  { split; [apply Z.div_pos; lia|].
    apply Z.div_lt_upper_bound; lia. }
  split; [done|]. split; [unfold length_bits in Hlb; lia|].
  split; [unfold length_mask; by rewrite Hlb|].
  split; [done|]. split; [done|].
  rewrite Hml, Hmd, land_low_bits, Z.shiftr_div_pow2 by lia.
  split; [done|]. split; [done|]. split; [lia|]. split; [lia|].
  split.
  - intros output Hlen n d.
    assert (Hn : n = Z.to_nat (match_length (length output) token)).
    { subst n. by rewrite Hlen, Hml, land_low_bits by lia. }
    assert (Hd : d = Z.to_nat (match_distance (length output) token)).
    { subst d. by rewrite Hlen, Hmd, Z.shiftr_div_pow2 by lia. }
    unfold backref. rewrite <- Hn, <- Hd.
    destruct (decide (length output < d)%nat) as [Hfar|Hnear].
    + exists (replicate n Byte.x00). split; [done|].
      split; [apply length_replicate|]. split; [done | lia].
    + assert (1 <= d)%nat by (subst d; lia).
      destruct (copy_from_window_inv n (length output - d) output ltac:(lia))
        as (copied & Heq & Hcl & Hcopy).
      exists copied. rewrite Heq. split; [done|]. split; [done|].
      split; [lia|]. intros _ i Hi.
      replace (length output + i - d)%nat with (length output - d + i)%nat
        by lia.
      by apply Hcopy.
  - intros output data n chunk_end pos flag_byte bit bits _.
    apply token_loop_backref.
Qed.

Lemma token_split_by_output_size_witness :
  match_length 1 0x0010 = 19 /\ match_distance 1 0x0010 = 1
  /\ (exists copied, backref [Byte.x41] 0x0010 = [Byte.x41] ++ copied
                     /\ length copied = 19%nat)
  /\ token_loop run_payload 20 6 2 [1; 2] 4 [Byte.x41]
     = token_loop run_payload 20 6 2 [2] 6 (backref [Byte.x41] 0x0010).
Proof.
  destruct (token_split_by_output_size 1 0x0010)
    as (_ & _ & _ & Hl & Hd & _ & _ & _ & _ & Hcopy & Hloop); [lia|].
  split; [exact Hl|]. split; [exact Hd|]. split.
  - destruct (Hcopy [Byte.x41] eq_refl) as (copied & Heq & Hlen & _).
    exists copied. split; [exact Heq | exact Hlen].
  - apply (Hloop [Byte.x41] run_payload 20%nat 6%nat 4%nat 2 1 [2]).
    + reflexivity.
    + simpl. lia.
    + lia.
    + discriminate.
    + reflexivity.
Defined.

(** C1 (as stated) fails.  With one byte of output the engine decodes the
    token [0x0010] with 12 length bits, as length 19 at distance 1, where the
    stated table (4 length bits) gives length 3 at distance 2; on
    [run_payload] the engine therefore emits a run of twenty ['A']. *)
Lemma token_split_counterexample :
  length_bits 1 = 12 /\ spec_length_bits 1 = 4
  /\ match_length 1 0x0010 = 19
  /\ Z.land 0x0010 (Z.shiftl 1 (spec_length_bits 1) - 1) + 3 = 3
  /\ match_distance 1 0x0010 = 1
  /\ Z.shiftr 0x0010 (spec_length_bits 1) + 1 = 2
  /\ _lznt1_decompress run_payload 20 = Done (Some (replicate 20 Byte.x41))
  /\ ~ spec_token_split.
Proof.
  repeat (split; [vm_compute; reflexivity|]).
  intros H. destruct (H 1%nat 0x0010) as [Hl _]; [lia|].
  vm_compute in Hl. discriminate Hl.
Qed.

(** C8.  The decompressor returns on every payload and target size, without
    raising, and what it returns is never longer than the target size.  Its
    loops are bounded by the remaining input (fuel equal to the number of
    bytes left always suffices) and by the target size (once the output has
    reached it, neither loop makes another turn). *)
Theorem lznt1_decompress_terminates (compressed_data : list byte)
    (uncompressed_size : nat) :
  (exists out,
     _lznt1_decompress compressed_data uncompressed_size = Done (Some out)
     /\ (length out <= uncompressed_size)%nat)
  /\ (forall fuel pos output,
        (length compressed_data - pos <= fuel)%nat ->
        (exists output',
           stream_loop fuel compressed_data uncompressed_size pos output
           = Done output')
        /\ forall chunk_end, exists pos' output',
             chunk_loop fuel compressed_data uncompressed_size chunk_end
                        pos output = Done (pos', output')
             /\ (pos <= pos')%nat)
  /\ (forall fuel pos output,
        (uncompressed_size <= length output)%nat ->
        stream_loop fuel compressed_data uncompressed_size pos output
        = Done output
        /\ forall chunk_end,
             chunk_loop fuel compressed_data uncompressed_size chunk_end
                        pos output = Done (pos, output)).
Proof.
  split; [|split].
  - apply lznt1_decompress_done.
  - intros fuel pos output Hfuel. split.
    + by apply stream_loop_done.
    + intros chunk_end. by apply chunk_loop_done.
  - intros fuel pos output Hn. split.
    + by apply stream_loop_target_reached.
    + intros chunk_end. by apply chunk_loop_target_reached.
Qed.

Lemma lznt1_decompress_terminates_witness :
  (exists out, _lznt1_decompress run_payload 20 = Done (Some out)
               /\ (length out <= 20)%nat)
  /\ (exists output', stream_loop 6 run_payload 20 0 [] = Done output')
  /\ stream_loop 0 run_payload 1 0 [Byte.x41] = Done [Byte.x41].
Proof.
  destruct (lznt1_decompress_terminates run_payload 20) as (H1 & H2 & _).
  destruct (lznt1_decompress_terminates run_payload 1) as (_ & _ & H3).
  split; [exact H1|]. split.
  - apply (H2 6%nat 0%nat []). simpl. lia.
  - apply (H3 0%nat 0%nat [Byte.x41]). simpl. lia.
Defined.

(** C10.  In the copy of a back-reference whose distance is valid
    ([match_distance <= len(output)]), the read cursor is strictly below the
    output length before every turn of the byte-by-byte copy, so that each
    turn takes the copying branch and never the zero-padding one; the bytes
    appended are [match_length] bytes, each equal to the byte
    [match_distance] places before it. *)
Theorem backref_copy_stays_in_window (output : list byte) (token : Z) :
  0 <= token ->
  match_distance (length output) token <= Z.of_nat (length output) ->
  let n := Z.to_nat (match_length (length output) token) in
  let d := Z.to_nat (match_distance (length output) token) in
  (forall k, (k < n)%nat ->
     exists start_pos out b,
       copy_from_window k ((length output - d)%nat, output) = (start_pos, out)
       /\ (start_pos < length out)%nat
       /\ out !! start_pos = Some b
       /\ copy_step (start_pos, out) = (S start_pos, out ++ [b]))
  /\ exists copied,
       backref output token = output ++ copied
       /\ length copied = n
       /\ forall i, (i < n)%nat ->
            (output ++ copied) !! (length output + i)%nat
            = (output ++ copied) !! (length output + i - d)%nat
            /\ is_Some ((output ++ copied) !! (length output + i - d)%nat).
Proof.
  intros Htok Hdist n d.
  pose proof (match_distance_pos (length output) token Htok) as Hpos.
  assert (Hd : (1 <= d <= length output)%nat) by (subst d; lia).
  assert (Hstart : (length output - d < length output)%nat) by lia.
  split.
  - intros k Hk.
    destruct (copy_from_window_inv k _ output Hstart) as (copied & Heq & Hlen & _).
    destruct (lookup_lt_is_Some_2 (output ++ copied) (length output - d + k))
      as [b Hb]; [rewrite length_app; lia|].
    exists (length output - d + k)%nat, (output ++ copied), b.
    split; [exact Heq|]. split; [rewrite length_app; lia|].
    split; [exact Hb|]. unfold copy_step. by rewrite Hb.
  - destruct (copy_from_window_inv n _ output Hstart) as (copied & Heq & Hlen & Hcopy).
    exists copied. split.
    + unfold backref. fold n d. destruct (decide _); [lia|]. by rewrite Heq.
    + split; [exact Hlen|]. intros i Hi.
      replace (length output + i - d)%nat with (length output - d + i)%nat by lia.
      split; [by apply Hcopy|].
      apply lookup_lt_is_Some_2. rewrite length_app. lia.
Qed.

Lemma backref_copy_stays_in_window_witness :
  exists copied, backref [Byte.x41] 0x0010 = [Byte.x41] ++ copied
                 /\ length copied = 19%nat.
Proof.
  destruct (backref_copy_stays_in_window [Byte.x41] 0x0010)
    as (_ & copied & Heq & Hlen & _).
  - lia.
  - vm_compute. discriminate.
  - exists copied. split; [exact Heq | exact Hlen].
Defined.

(** ** FILETIME conversion *)

Import Filetime.






Lemma filetime_to_datetime_nonzero (filetime : Z) :
  filetime <> 0 ->
  _filetime_to_datetime filetime
  = Done (if usec filetime <=? MAX_DELTA then Some (usec filetime) else None).
Proof.
  intros Hnz. unfold _filetime_to_datetime, epoch_plus. fold (usec filetime).
  destruct (filetime =? 0) eqn:H0; [apply Z.eqb_eq in H0; done|].
  by destruct (usec filetime <=? MAX_DELTA).
Qed.






Lemma filetime_to_datetime_done (filetime : Z) :
  exists r, _filetime_to_datetime filetime = Done r.
Proof.
  destruct (decide (filetime = 0)) as [->|Hnz]; [by exists None|].
  rewrite filetime_to_datetime_nonzero by done. eauto.
Qed.

Lemma filetime_to_datetime_Some (filetime : Z) (t : datetime) :
  _filetime_to_datetime filetime = Done (Some t) ->
  filetime <> 0 /\ t = usec filetime /\ t <= MAX_DELTA.
Proof.
  intros H. destruct (decide (filetime = 0)) as [->|Hnz]; [discriminate H|].
  rewrite filetime_to_datetime_nonzero in H by done.
  destruct (usec filetime <=? MAX_DELTA) eqn:Hle; [|discriminate H].
  apply Z.leb_le in Hle. injection H as <-. done.
Qed.

(** The slots of the multi-timestamp layouts: the loop returns, and every
    time it adds is the conversion of a non-zero FILETIME slot. *)
Lemma execution_times_loop_sources (data : list byte) (range : list nat)
    (acc : list datetime) :
  exists times,
    execution_times_loop data range acc = Done times
    /\ forall t, t ∈ times ->
         t ∈ acc
         \/ exists i filetime,
              i ∈ range
              /\ struct_unpack 8 (slice data (0x80 + i * 8) (0x80 + i * 8 + 8))
                 = Done filetime
              /\ filetime <> 0
              /\ _filetime_to_datetime filetime = Done (Some t).
Proof.
  revert acc. induction range as [|i range IH]; intros acc.
  - exists acc. split; [done|]. auto.
  - cbn [execution_times_loop].
    destruct (struct_unpack 8 _) as [filetime| |] eqn:Hu.
    + cbn [bind].
      destruct (filetime_to_datetime_done filetime) as [r Hr]. rewrite Hr.
      cbn [bind].
      destruct (IH (match r with Some t => acc ++ [t] | None => acc end))
        as (times & -> & Hsrc).
      exists times. split; [done|]. intros t Ht.
      destruct (Hsrc t Ht) as [Hacc | (j & f & Hj & Hf & Hnz & Hc)].
      * destruct r as [t'|]; [|by left].
        apply elem_of_app in Hacc as [Hacc | Hlast]; [by left|].
        apply list_elem_of_singleton in Hlast as ->.
        right. exists i, filetime.
        destruct (filetime_to_datetime_Some _ _ Hr) as (Hnz & _ & _).
        split; [apply list_elem_of_here|]. done.
      * right. exists j, f. split; [by apply list_elem_of_further|]. done.
    + cbn [bind]. exists acc. split; [done|]. auto.
    + unfold struct_unpack in Hu. destruct (decide _); discriminate Hu.
Qed.




(** ** The record parser *)

Lemma versions_lookup_None (version : Z) :
  PREFETCH_VERSIONS !! version = None
  <-> version <> 17 /\ version <> 23 /\ version <> 26 /\ version <> 30.
Proof.
  unfold PREFETCH_VERSIONS. split.
  - intros H. repeat split; intros ->; vm_compute in H; discriminate H.
  - intros (H17 & H23 & H26 & H30).
    rewrite !lookup_insert_ne by done. apply lookup_empty.
Qed.

Lemma decompress_mam_done (compressed_data : list byte) :
  exists r, _decompress_mam compressed_data = Done r
            /\ (truthy r = true \/ r = None).
Proof.
  unfold _decompress_mam.
  destruct (decide _) as [Hsig|Hsig]; [exists None; by split; [|right]|].
  destruct (struct_unpack 4 _) as [size| |] eqn:Hu; cbn [bind try_except].
  - destruct (lznt1_decompress_done (drop 8 compressed_data) (Z.to_nat size))
      as (out & -> & _).
    cbn [bind]. destruct (truthy (Some out) && _) eqn:Hc; cbn [try_except].
    + exists (Some out). split; [done|]. left.
      by apply andb_true_iff in Hc as [? _].
    + exists None. by split; [|right].
  - exists None. by split; [|right].
  - unfold struct_unpack in Hu. destruct (decide _); discriminate Hu.
Qed.

Lemma struct_unpack_fuel (w : nat) (bs : list byte) :
  struct_unpack w bs <> OutOfFuel.
Proof. unfold struct_unpack. by destruct (decide _). Qed.

(** A [try] body that starts with a read returns what its continuation
    returns, or the handler's value when the read raises. *)
Lemma try_unpack {A : Type} (P : A -> Prop) (w : nat) (bs : list byte)
    (k : Z -> outcome A) (handler : A) :
  P handler ->
  (forall x, struct_unpack w bs = Done x ->
             exists r, try_except (k x) handler = Done r /\ P r) ->
  exists r, try_except (bind (struct_unpack w bs) k) handler = Done r /\ P r.
Proof.
  intros Hh Hk. destruct (struct_unpack w bs) as [x| |] eqn:Hu; cbn [bind].
  - by apply Hk.
  - by exists handler.
  - by apply struct_unpack_fuel in Hu.
Qed.

Lemma try_convert {A : Type} (P : A -> Prop) (filetime : Z)
    (k : option datetime -> outcome A) (handler : A) :
  (forall x, _filetime_to_datetime filetime = Done x ->
             exists r, try_except (k x) handler = Done r /\ P r) ->
  exists r,
    try_except (bind (_filetime_to_datetime filetime) k) handler = Done r /\ P r.
Proof.
  intros Hk. destruct (filetime_to_datetime_done filetime) as [x Hx].
  rewrite Hx. cbn [bind]. by apply Hk.
Qed.

Lemma execution_times_loop_length (data : list byte) (range : list nat)
    (acc times : list datetime) :
  execution_times_loop data range acc = Done times ->
  (length times <= length acc + length range)%nat.
Proof.
  revert acc. induction range as [|i range IH]; intros acc; cbn [execution_times_loop].
  - intros [= <-]. lia.
  - destruct (struct_unpack 8 _) as [filetime| |]; cbn [bind].
    + destruct (filetime_to_datetime_done filetime) as [r ->]. cbn [bind].
      intros H. apply IH in H. destruct r; rewrite ?length_app in H; simpl in *; lia.
    + intros [= <-]. simpl. lia.
    + discriminate.
Qed.

Section ParserFacts.

Variable decode_utf16le : list byte -> string.

Lemma parse_version_17_spec (data : list byte) (pf_path : PfPath) :
  exists r, _parse_version_17 decode_utf16le data pf_path = Done r
    /\ forall rec, r = Some rec ->
         record_ok pf_path rec /\ pf_version rec = 17
         /\ pf_executable_name rec = exec_name_of decode_utf16le data.
Proof.
  unfold _parse_version_17.
  apply try_unpack; [done|]. intros prefetch_hash _.
  apply try_unpack; [done|]. intros run_count _.
  apply try_unpack; [done|]. intros last_exec_time _.
  apply try_convert. intros last_exec_datetime _.
  cbn [getitem bind try_except]. eexists. split; [reflexivity|].
  intros rec [= <-]. unfold record_ok. cbn.
  repeat split; by destruct last_exec_datetime; simpl; try lia.
Qed.

Lemma parse_version_23_spec (data : list byte) (pf_path : PfPath) :
  exists r, _parse_version_23 decode_utf16le data pf_path = Done r
    /\ forall rec, r = Some rec ->
         record_ok pf_path rec /\ pf_version rec = 23
         /\ pf_executable_name rec = exec_name_of decode_utf16le data.
Proof.
  unfold _parse_version_23.
  apply try_unpack; [done|]. intros prefetch_hash _.
  apply try_unpack; [done|]. intros run_count _.
  apply try_unpack; [done|]. intros last_exec_time _.
  apply try_convert. intros last_exec_datetime _.
  cbn [getitem bind try_except]. eexists. split; [reflexivity|].
  intros rec [= <-]. unfold record_ok. cbn.
  repeat split; by destruct last_exec_datetime; simpl; try lia.
Qed.

Lemma parse_multi_spec (version : Z) (data : list byte) (pf_path : PfPath) :
  version = 26 \/ version = 30 ->
  exists r, parse_multi decode_utf16le version data pf_path = Done r
    /\ forall rec, r = Some rec ->
         record_ok pf_path rec /\ pf_version rec = version
         /\ pf_executable_name rec = exec_name_of decode_utf16le data.
Proof.
  intros Hv. unfold parse_multi.
  apply try_unpack; [done|]. intros prefetch_hash _.
  apply try_unpack; [done|]. intros run_count _.
  destruct (execution_times_loop_sources data (seq 0 8) [])
    as (times & Heq & _).
  pose proof (execution_times_loop_length _ _ _ _ Heq) as Hlen.
  rewrite Heq. cbn [bind].
  destruct Hv as [-> | ->]; cbn [getitem bind try_except];
    (eexists; split; [reflexivity|]);
    intros rec [= <-]; unfold record_ok; cbn; repeat split; simpl in Hlen; lia.
Qed.

(** The version check and dispatch never raise; a record comes out only
    for a header version among 17, 23, 26 and 30, and carries it. *)
Lemma parse_header_spec (data : list byte) (pf_path : PfPath) :
  exists r, parse_header decode_utf16le data pf_path = Done r
    /\ forall rec, r = Some rec ->
         record_ok pf_path rec
         /\ struct_unpack 4 (slice data 0 4) = Done (pf_version rec)
         /\ pf_executable_name rec = exec_name_of decode_utf16le data.
Proof.
  unfold parse_header.
  destruct (decide (length data < 4)%nat) as [Hshort|Hlong];
    [by exists None|].
  pose proof (struct_unpack_in_range 4 data 0 ltac:(lia)) as Hu.
  change (0 + 4)%nat with 4%nat in Hu. rewrite Hu. cbn [bind].
  set (version := le_value (slice data 0 4)) in *.
  destruct (decide (PREFETCH_VERSIONS !! version = None)) as [Hun|Hkn];
    [by exists None|].
  destruct (version =? 17) eqn:H17.
  { apply Z.eqb_eq in H17. rewrite H17.
    destruct (parse_version_17_spec data pf_path) as (r & -> & Hr).
    exists r. split; [done|]. intros rec ->.
    destruct (Hr rec eq_refl) as (? & -> & ?). done. }
  destruct (version =? 23) eqn:H23.
  { apply Z.eqb_eq in H23. rewrite H23.
    destruct (parse_version_23_spec data pf_path) as (r & -> & Hr).
    exists r. split; [done|]. intros rec ->.
    destruct (Hr rec eq_refl) as (? & -> & ?). done. }
  destruct (version =? 26) eqn:H26.
  { apply Z.eqb_eq in H26. rewrite H26.
    destruct (parse_multi_spec 26 data pf_path) as (r & Heq & Hr); [by left|].
    unfold _parse_version_26. rewrite Heq.
    exists r. split; [done|]. intros rec ->.
    destruct (Hr rec eq_refl) as (? & -> & ?). done. }
  destruct (version =? 30) eqn:H30.
  { apply Z.eqb_eq in H30. rewrite H30.
    destruct (parse_multi_spec 30 data pf_path) as (r & Heq & Hr); [by right|].
    unfold _parse_version_30. rewrite Heq.
    exists r. split; [done|]. intros rec ->.
    destruct (Hr rec eq_refl) as (? & -> & ?). done. }
  by exists None.
Qed.

End ParserFacts.

(** ** Reads at fixed offsets *)

Lemma unpack_ok (data : list byte) (a b w : nat) :
  b = (a + w)%nat -> (b <= length data)%nat ->
  struct_unpack w (slice data a b) = Done (le_value (slice data a b)).
Proof. intros -> H. by apply struct_unpack_in_range. Qed.

Lemma unpack_fail (data : list byte) (a b w : nat) :
  b = (a + w)%nat -> (0 < w)%nat -> (length data < b)%nat ->
  struct_unpack w (slice data a b) = Raised.
Proof.
  intros -> Hw H. unfold struct_unpack. destruct (decide _) as [Hl|]; [|done].
  unfold slice in Hl. rewrite length_take, length_drop in Hl. lia.
Qed.

Lemma unpack_Done_length (data : list byte) (a b w : nat) (v : Z) :
  b = (a + w)%nat -> (0 < w)%nat ->
  struct_unpack w (slice data a b) = Done v ->
  (b <= length data)%nat /\ 0 <= v < 256 ^ Z.of_nat w.
Proof.
  intros -> Hw H. unfold struct_unpack in H.
  destruct (decide _) as [Hl|]; [|discriminate]. injection H as <-.
  pose proof (le_value_range (slice data a (a + w))) as Hr. rewrite Hl in Hr.
  split; [|done].
  unfold slice in Hl. rewrite length_take, length_drop in Hl. lia.
Qed.

Section HeaderFailures.

Variable decode_utf16le : list byte -> string.

(** The two ways the version check and dispatch give no record for a buffer
    that has a version word: the version is not a key of
    [PREFETCH_VERSIONS], or the buffer is too short for the run count of its
    layout. *)
Lemma parse_header_rejects (data : list byte) (pf_path : PfPath) (version : Z) :
  struct_unpack 4 (slice data 0 4) = Done version ->
  (version <> 17 /\ version <> 23 /\ version <> 26 /\ version <> 30)
  \/ (length data < required_length version)%nat ->
  parse_header decode_utf16le data pf_path = Done None.
Proof.
  intros Hver Hbad. unfold parse_header.
  destruct (decide _) as [|_]; [done|]. rewrite Hver. cbn [bind].
  destruct (decide _) as [|Hknown]; [done|].
  destruct Hbad as [Hunknown | Hshort];
    [by destruct Hknown; apply versions_lookup_None|].
  assert (Hcut : forall (a b : nat) (k : Z -> Z -> outcome (option PrefetchRecord)),
            b = (a + 4)%nat -> (length data < b)%nat ->
            try_except
              (bind (struct_unpack 4 (slice data 0x4C 0x50))
                    (fun hash => bind (struct_unpack 4 (slice data a b)) (k hash)))
              None = Done None).
  { intros a b k Hb Hl.
    destruct (struct_unpack 4 (slice data 0x4C 0x50)) as [hash| |] eqn:Hh;
      cbn [bind try_except]; [|done|by apply struct_unpack_fuel in Hh].
    by rewrite (unpack_fail data a b 4) by (done || lia). }
  unfold required_length in Hshort.
  destruct (version =? 17) eqn:H17.
  { unfold _parse_version_17. by apply (Hcut 0x90%nat 0x94%nat). }
  destruct (version =? 23) eqn:H23.
  { unfold _parse_version_23. by apply (Hcut 0x98%nat 0x9C%nat). }
  destruct (version =? 26) eqn:H26.
  { unfold _parse_version_26, parse_multi. by apply (Hcut 0xD0%nat 0xD4%nat). }
  destruct (version =? 30) eqn:H30; [|done].
  unfold _parse_version_30, parse_multi. by apply (Hcut 0xD0%nat 0xD4%nat).
Qed.

End HeaderFailures.

(** ** One file through the analyzer *)

Section FileFacts.

Variable decode_utf16le : list byte -> string.

Lemma truthy_Some (d : option (list byte)) :
  truthy d = true -> exists data, d = Some data /\ (0 < length data)%nat.
Proof.
  destruct d as [[|b data]|]; try discriminate.
  intros _. eexists. split; [done|]. simpl. lia.
Qed.

Lemma analyze_file_of_parse (self self1 : Analyzer) (pf_path : PfPath)
    (r : option PrefetchRecord) :
  _parse_prefetch_file decode_utf16le self pf_path = (Done r, self1) ->
  analyze_file decode_utf16le self pf_path
  = (Done tt,
     match r with
     | Some rec =>
       _add_to_programs (_add_to_timeline (append_record self1 rec) rec) rec
     | None => self1
     end).
Proof.
  intros H. unfold analyze_file. rewrite H. by destruct r.
Qed.

(** The loop over the files goes on with the next file, from the analyzer
    the current file leaves. *)
Lemma analyze_files_next (self self' : Analyzer) (pf_path : PfPath)
    (rest : list PfPath) :
  analyze_file decode_utf16le self pf_path = (Done tt, self') ->
  analyze_files decode_utf16le self (pf_path :: rest)
  = analyze_files decode_utf16le self' rest.
Proof. intros H. cbn [analyze_files]. by rewrite H. Qed.

Lemma analyze_next (self self' : Analyzer) (pf_path : PfPath)
    (rest : list PfPath) :
  analyze_file decode_utf16le self pf_path = (Done tt, self') ->
  rest <> [] ->
  analyze decode_utf16le self (pf_path :: rest)
  = analyze decode_utf16le self' rest.
Proof.
  intros H Hrest. unfold analyze.
  rewrite (analyze_files_next _ _ _ _ H). by destruct rest.
Qed.

(** C2.  A MAM container whose declared size differs from the length of
    what the LZNT1 engine returns is rejected: the file name is appended to
    [decompression_failed], no record is produced, and the parsed files,
    the programs and the timeline are left as they were. *)
Theorem size_mismatch_rejected (self : Analyzer) (pf_path : PfPath)
    (data out : list byte) (uncompressed_size : Z) :
  path_read pf_path = Some data ->
  take 4 data = MAM_SIGNATURE ->
  struct_unpack 4 (slice data 4 8) = Done uncompressed_size ->
  _lznt1_decompress (drop 8 data) (Z.to_nat uncompressed_size)
  = Done (Some out) ->
  Z.of_nat (length out) <> uncompressed_size ->
  _decompress_mam data = Done None
  /\ _parse_prefetch_file decode_utf16le self pf_path
     = (Done None, record_failure (count_compressed self) (path_name pf_path))
  /\ exists self',
       analyze_file decode_utf16le self pf_path = (Done tt, self')
       /\ decompression_failed self'
          = decompression_failed self ++ [path_name pf_path]
       /\ prefetch_files self' = prefetch_files self
       /\ programs self' = programs self
       /\ execution_timeline self' = execution_timeline self.
Proof.
  intros Hread Hsig Hsize Hout Hne.
  assert (Hmam : _decompress_mam data = Done None).
  { unfold _decompress_mam. destruct (decide _); [done|].
    rewrite Hsize. cbn [bind]. rewrite Hout. cbn [bind].
    rewrite bool_decide_eq_false_2 by done.
    by rewrite andb_false_r. }
  assert (Hparse : _parse_prefetch_file decode_utf16le self pf_path
     = (Done None, record_failure (count_compressed self) (path_name pf_path))).
  { unfold _parse_prefetch_file. rewrite Hread.
    destruct (decide _); [|done]. by rewrite Hmam. }
  split; [done|]. split; [done|].
  eexists. split; [by apply analyze_file_of_parse|]. done.
Qed.

(** C5.  A buffer whose first four bytes give a version other than 17, 23,
    26 and 30 yields no record and no exception, whether it was read as it
    is or came out of a MAM container; the file changes nothing but the
    count of compressed files, and the batch continues with the next file:
    the loop over the files, and the run as a whole, go on with the rest of
    the files as if the file had not been there. *)
Theorem unknown_version_rejected (self : Analyzer) (pf_path : PfPath)
    (data : list byte) (version : Z) :
  struct_unpack 4 (slice data 0 4) = Done version ->
  version <> 17 -> version <> 23 -> version <> 26 -> version <> 30 ->
  parse_header decode_utf16le data pf_path = Done None
  /\ (path_read pf_path = Some data -> take 4 data <> MAM_SIGNATURE ->
      _parse_prefetch_file decode_utf16le self pf_path = (Done None, self)
      /\ analyze_file decode_utf16le self pf_path = (Done tt, self)
      /\ (forall rest,
            analyze_files decode_utf16le self (pf_path :: rest)
            = analyze_files decode_utf16le self rest)
      /\ (forall rest, rest <> [] ->
            analyze decode_utf16le self (pf_path :: rest)
            = analyze decode_utf16le self rest))
  /\ (forall raw,
        path_read pf_path = Some raw -> take 4 raw = MAM_SIGNATURE ->
        _decompress_mam raw = Done (Some data) ->
        _parse_prefetch_file decode_utf16le self pf_path
        = (Done None, count_compressed self)
        /\ analyze_file decode_utf16le self pf_path
           = (Done tt, count_compressed self)
        /\ (forall rest,
              analyze_files decode_utf16le self (pf_path :: rest)
              = analyze_files decode_utf16le (count_compressed self) rest)
        /\ (forall rest, rest <> [] ->
              analyze decode_utf16le self (pf_path :: rest)
              = analyze decode_utf16le (count_compressed self) rest)).
Proof.
  intros Hver H17 H23 H26 H30.
  assert (Hlen : ~ (length data < 4)%nat).
  { unfold struct_unpack in Hver. destruct (decide _) as [Hl|]; [|done].
    unfold slice in Hl. rewrite length_take, length_drop in Hl. lia. }
  assert (Hhdr : parse_header decode_utf16le data pf_path = Done None).
  { unfold parse_header. destruct (decide _); [done|].
    rewrite Hver. cbn [bind].
    destruct (decide _) as [|Hkn]; [done|].
    exfalso. apply Hkn. by apply versions_lookup_None. }
  split; [done|]. split.
  - intros Hread Hsig.
    assert (_parse_prefetch_file decode_utf16le self pf_path = (Done None, self))
      as Hp.
    { unfold _parse_prefetch_file. rewrite Hread.
      destruct (decide _); [done|]. by rewrite Hhdr. }
    pose proof (analyze_file_of_parse _ _ _ _ Hp) as Hfile.
    split; [done|]. split; [done|]. split.
    + intros rest. by apply analyze_files_next.
    + intros rest Hrest. by apply analyze_next.
  - intros raw Hread Hsig Hmam.
    assert (_parse_prefetch_file decode_utf16le self pf_path
            = (Done None, count_compressed self)) as Hp.
    { unfold _parse_prefetch_file. rewrite Hread.
      destruct (decide _); [|done]. rewrite Hmam.
      assert (truthy (Some data) = true) as ->
        by (destruct data; [simpl in Hlen; lia | done]).
      change (default [] (Some data)) with data.
      cbn [negb]. by rewrite Hhdr. }
    pose proof (analyze_file_of_parse _ _ _ _ Hp) as Hfile.
    split; [done|]. split; [done|]. split.
    + intros rest. by apply analyze_files_next.
    + intros rest Hrest. by apply analyze_next.
Qed.

(** C6 (as amended).  Every per-file failure is caught at file granularity
    and processing continues with the next file: whatever the file, no
    exception leaves the loop body, and the loop over the files and the run
    go on with the rest of the files from the analyzer the file leaves.  An
    unreadable file, a buffer shorter than its version word, an unsupported
    version and a truncated record yield no record, and a file that yields
    no record leaves the parsed files, the programs and the timeline as they
    were.  Only a failed decompression of a MAM-signed file is recorded, by
    appending the file name to [decompression_failed]; every MAM-signed file
    is counted in [compressed_count]; an unreadable file, and a file without
    the MAM signature, whatever happens to it, leave the analyzer exactly as
    it was. *)
Theorem per_file_failure_accounting (self : Analyzer) (pf_path : PfPath) :
  exists r self1,
    let self' := match r with
                 | Some rec =>
                   _add_to_programs
                     (_add_to_timeline (append_record self1 rec) rec) rec
                 | None => self1
                 end in
    _parse_prefetch_file decode_utf16le self pf_path = (Done r, self1)
    /\ analyze_file decode_utf16le self pf_path = (Done tt, self')
    /\ (forall rest,
          analyze_files decode_utf16le self (pf_path :: rest)
          = analyze_files decode_utf16le self' rest)
    /\ (forall rest, rest <> [] ->
          analyze decode_utf16le self (pf_path :: rest)
          = analyze decode_utf16le self' rest)
    /\ prefetch_files self1 = prefetch_files self
    /\ programs self1 = programs self
    /\ execution_timeline self1 = execution_timeline self
    /\ match path_read pf_path with
       | None => r = None /\ self1 = self
       | Some data =>
         if decide (take 4 data = MAM_SIGNATURE) then
           exists d, _decompress_mam data = Done d
             /\ if truthy d then self1 = count_compressed self
                else r = None
                     /\ self1 = record_failure (count_compressed self)
                                               (path_name pf_path)
         else self1 = self
       end
    /\ (forall data,
          (path_read pf_path = Some data /\ take 4 data <> MAM_SIGNATURE)
          \/ (exists raw, path_read pf_path = Some raw
                          /\ take 4 raw = MAM_SIGNATURE
                          /\ _decompress_mam raw = Done (Some data)) ->
          parse_header decode_utf16le data pf_path = Done r
          /\ ((length data < 4)%nat -> r = None)
          /\ (forall version,
                struct_unpack 4 (slice data 0 4) = Done version ->
                (version <> 17 /\ version <> 23 /\ version <> 26
                 /\ version <> 30)
                \/ (length data < required_length version)%nat ->
                r = None)).
Proof.
  assert (Hgoal : exists r self1,
    _parse_prefetch_file decode_utf16le self pf_path = (Done r, self1)
    /\ prefetch_files self1 = prefetch_files self
    /\ programs self1 = programs self
    /\ execution_timeline self1 = execution_timeline self
    /\ match path_read pf_path with
       | None => r = None /\ self1 = self
       | Some data =>
         if decide (take 4 data = MAM_SIGNATURE) then
           exists d, _decompress_mam data = Done d
             /\ if truthy d then self1 = count_compressed self
                else r = None
                     /\ self1 = record_failure (count_compressed self)
                                               (path_name pf_path)
         else self1 = self
       end
    /\ (forall data,
          (path_read pf_path = Some data /\ take 4 data <> MAM_SIGNATURE)
          \/ (exists raw, path_read pf_path = Some raw
                          /\ take 4 raw = MAM_SIGNATURE
                          /\ _decompress_mam raw = Done (Some data)) ->
          parse_header decode_utf16le data pf_path = Done r)).
  { unfold _parse_prefetch_file.
    destruct (path_read pf_path) as [data|].
    2:{ exists None, self. repeat (split; [done|]).
        intros data [[[=] _] | (raw & [=] & _)]. }
    destruct (decide (take 4 data = MAM_SIGNATURE)) as [Hsig|Hsig].
    - destruct (decompress_mam_done data) as (d & Hd & Hcase). rewrite Hd.
      destruct (truthy d) eqn:Ht; cbn [negb].
      + destruct (parse_header_spec decode_utf16le (default [] d) pf_path)
          as (r & Hr & _). rewrite Hr.
        exists r, (count_compressed self). cbn [try_except].
        repeat (split; [done|]). split.
        * exists d. split; [done|]. by rewrite Ht.
        * intros buf [[[= <-] Hns] | (raw & [= <-] & _ & Hraw)]; [done|].
          rewrite Hd in Hraw. injection Hraw as ->. exact Hr.
      + exists None, (record_failure (count_compressed self) (path_name pf_path)).
        repeat (split; [done|]). split.
        * exists d. split; [done|]. by rewrite Ht.
        * intros buf [[[= <-] Hns] | (raw & [= <-] & _ & Hraw)]; [done|].
          rewrite Hd in Hraw. injection Hraw as ->.
          destruct Hcase as [Htrue | [=]]. congruence.
    - destruct (parse_header_spec decode_utf16le data pf_path) as (r & Hr & _).
      rewrite Hr. exists r, self. cbn [try_except]. repeat (split; [done|]).
      intros buf [[[= <-] _] | (raw & [= <-] & Hs & _)]; done. }
  destruct Hgoal as (r & self1 & Hp & H1 & H2 & H3 & H4 & H5).
  exists r, self1. cbv zeta.
  pose proof (analyze_file_of_parse _ _ _ _ Hp) as Hfile.
  split; [done|]. split; [done|]. split.
  { intros rest. by apply analyze_files_next. }
  split.
  { intros rest Hrest. by apply analyze_next. }
  split; [done|]. split; [done|]. split; [done|]. split; [done|].
  intros data Hreach. specialize (H5 data Hreach). split; [done|]. split.
  - intros Hshort. unfold parse_header in H5.
    destruct (decide _) as [_|]; [|lia]. by injection H5.
  - intros version Hver Hbad.
    rewrite (parse_header_rejects decode_utf16le data pf_path version Hver Hbad)
      in H5.
    by injection H5.
Qed.

End FileFacts.

Lemma size_mismatch_rejected_witness :
  analyze_file low_bytes init short_mam_file
  = (Done tt, record_failure (count_compressed init) "SHORT.pf").
Proof.
  destruct (size_mismatch_rejected low_bytes init short_mam_file
              (default [] (path_read short_mam_file))
              (replicate 800 Byte.x41) 1000)
    as (_ & Hp & _).
  - reflexivity.
  - reflexivity.
  - vm_compute. reflexivity.
  - vm_compute. reflexivity.
  - vm_compute. discriminate.
  - rewrite (analyze_file_of_parse _ _ _ _ _ Hp). reflexivity.
Defined.

Lemma unknown_version_rejected_witness :
  analyze_file low_bytes init unknown_version_file = (Done tt, init)
  /\ analyze_files low_bytes init [unknown_version_file; unsorted_file]
     = analyze_files low_bytes init [unsorted_file]
  /\ analyze low_bytes init [unknown_version_file; unsorted_file]
     = analyze low_bytes init [unsorted_file].
Proof.
  destruct (unknown_version_rejected low_bytes init unknown_version_file
              (default [] (path_read unknown_version_file)) 99)
    as (_ & H & _).
  - vm_compute. reflexivity.
  - discriminate.
  - discriminate.
  - discriminate.
  - discriminate.
  - destruct H as (_ & Hfile & Hloop & Hrun);
      [reflexivity | vm_compute; discriminate |].
    split; [exact Hfile|]. split; [apply Hloop|]. apply Hrun. discriminate.
Defined.

Lemma per_file_failure_accounting_witness :
  exists r self1,
    _parse_prefetch_file low_bytes init truncated_file = (Done r, self1)
    /\ prefetch_files self1 = []
    /\ r = None
    /\ analyze_files low_bytes init [truncated_file; unsorted_file]
       = analyze_files low_bytes self1 [unsorted_file].
Proof.
  destruct (per_file_failure_accounting low_bytes init truncated_file)
    as (r & self1 & Hp & _ & Hloop & _ & Hf & _ & _ & _ & Hfail).
  destruct (Hfail (le_bytes 4 17)) as (_ & _ & Hnone).
  { left. split; [reflexivity | vm_compute; discriminate]. }
  assert (Hr : r = None).
  { apply (Hnone 17); [reflexivity|]. right. vm_compute. lia. }
  exists r, self1. split; [exact Hp|]. split; [exact Hf|]. split; [exact Hr|].
  rewrite (Hloop [unsorted_file]). by rewrite Hr.
Defined.

(** C6 (as stated) fails.  A file stamped with version 99, a version-17 file
    cut after its header word and a file that cannot be read each yield no
    record and leave the analyzer exactly as it was: nothing is appended to
    a failure list and no counter moves. *)
Lemma failures_uncounted_counterexample :
  fst (_parse_prefetch_file low_bytes init unknown_version_file) = Done None
  /\ analyze_file low_bytes init unknown_version_file = (Done tt, init)
  /\ fst (_parse_prefetch_file low_bytes init truncated_file) = Done None
  /\ analyze_file low_bytes init truncated_file = (Done tt, init)
  /\ fst (_parse_prefetch_file low_bytes init unreadable_file) = Done None
  /\ analyze_file low_bytes init unreadable_file = (Done tt, init)
  /\ ~ spec_failures_counted low_bytes.
Proof.
  repeat (split; [vm_compute; reflexivity|]).
  intros H. apply (H init unknown_version_file); vm_compute; reflexivity.
Qed.

(** ** The program aggregates *)

Lemma py_min_spec (ts : list datetime) (t : datetime) :
  py_min t ts ∈ t :: ts /\ forall x, x ∈ t :: ts -> py_min t ts <= x.
Proof.
  unfold py_min. revert t. induction ts as [|a ts IH]; intros t; simpl.
  - split; [apply list_elem_of_here|].
    intros x Hx. apply list_elem_of_singleton in Hx. lia.
  - destruct (IH (Z.min t a)) as [Hin Hle]. split.
    + apply elem_of_cons in Hin as [Heq | Hin].
      * rewrite Heq. destruct (Z.min_spec t a) as [[_ ->] | [_ ->]].
        -- apply list_elem_of_here.
        -- apply list_elem_of_further, list_elem_of_here.
      * by do 2 apply list_elem_of_further.
    + intros x Hx.
      assert (Hm : foldl Z.min (Z.min t a) ts <= Z.min t a)
        by (apply Hle, list_elem_of_here).
      apply elem_of_cons in Hx as [-> | Hx]; [lia|].
      apply elem_of_cons in Hx as [-> | Hx]; [lia|].
      by apply Hle, list_elem_of_further.
Qed.

Lemma py_max_spec (ts : list datetime) (t : datetime) :
  py_max t ts ∈ t :: ts /\ forall x, x ∈ t :: ts -> x <= py_max t ts.
Proof.
  unfold py_max. revert t. induction ts as [|a ts IH]; intros t; simpl.
  - split; [apply list_elem_of_here|].
    intros x Hx. apply list_elem_of_singleton in Hx. lia.
  - destruct (IH (Z.max t a)) as [Hin Hle]. split.
    + apply elem_of_cons in Hin as [Heq | Hin].
      * rewrite Heq. destruct (Z.max_spec t a) as [[_ ->] | [_ ->]].
        -- apply list_elem_of_further, list_elem_of_here.
        -- apply list_elem_of_here.
      * by do 2 apply list_elem_of_further.
    + intros x Hx.
      assert (Hm : Z.max t a <= foldl Z.max (Z.max t a) ts)
        by (apply Hle, list_elem_of_here).
      apply elem_of_cons in Hx as [-> | Hx]; [lia|].
      apply elem_of_cons in Hx as [-> | Hx]; [lia|].
      by apply Hle, list_elem_of_further.
Qed.

(** The bounds depend on the set of times only, not on their order. *)
Lemma times_min_ext (l1 l2 : list datetime) :
  (forall x, x ∈ l1 <-> x ∈ l2) -> times_min l1 = times_min l2.
Proof.
  intros Hset. destruct l1 as [|t ts], l2 as [|u us]; simpl.
  - done.
  - exfalso. eapply not_elem_of_nil, Hset, list_elem_of_here.
  - exfalso. eapply not_elem_of_nil, Hset, list_elem_of_here.
  - f_equal.
    destruct (py_min_spec ts t) as [Hin1 Hle1].
    destruct (py_min_spec us u) as [Hin2 Hle2].
    apply Hset in Hin1. apply Hset in Hin2.
    apply Hle2 in Hin1. apply Hle1 in Hin2. lia.
Qed.

Lemma times_max_ext (l1 l2 : list datetime) :
  (forall x, x ∈ l1 <-> x ∈ l2) -> times_max l1 = times_max l2.
Proof.
  intros Hset. destruct l1 as [|t ts], l2 as [|u us]; simpl.
  - done.
  - exfalso. eapply not_elem_of_nil, Hset, list_elem_of_here.
  - exfalso. eapply not_elem_of_nil, Hset, list_elem_of_here.
  - f_equal.
    destruct (py_max_spec ts t) as [Hin1 Hle1].
    destruct (py_max_spec us u) as [Hin2 Hle2].
    apply Hset in Hin1. apply Hset in Hin2.
    apply Hle2 in Hin1. apply Hle1 in Hin2. lia.
Qed.

Lemma merge_times_elem (new old : list datetime) (t : datetime) :
  t ∈ merge_times old new <-> t ∈ old \/ t ∈ new.
Proof.
  unfold merge_times. revert old. induction new as [|a new IH]; intros old; simpl.
  - split; [by left|]. intros [H|H]; [done|]. by apply elem_of_nil in H.
  - rewrite IH. destruct (decide (a ∈ old)) as [Ha|Ha].
    + rewrite elem_of_cons. split; [tauto|].
      intros [H | [-> | H]]; tauto.
    + rewrite elem_of_app, list_elem_of_singleton, elem_of_cons. tauto.
Qed.

Lemma merge_times_prefix (new old : list datetime) :
  exists added, merge_times old new = old ++ added.
Proof.
  unfold merge_times. revert old. induction new as [|a new IH]; intros old; simpl.
  - exists []. by rewrite app_nil_r.
  - destruct (decide (a ∈ old)); [apply IH|].
    destruct (IH (old ++ [a])) as [added ->].
    exists (a :: added). by rewrite <- app_assoc.
Qed.

Lemma update_program_bounds (prog : ProgramAggregate) (pf_data : PrefetchRecord) :
  let prog' := update_program prog pf_data in
  prog_last_execution prog'
  = match times_max (prog_execution_times prog') with
    | Some t => Some t
    | None => prog_last_execution prog
    end
  /\ prog_first_execution prog'
     = match times_min (prog_execution_times prog') with
       | Some t => Some t
       | None => prog_first_execution prog
       end.
Proof.
  unfold update_program; cbn.
  by destruct (merge_times _ _).
Qed.

Lemma add_program_lookup (progs : gmap string ProgramAggregate)
    (pf_data : PrefetchRecord) :
  add_program progs pf_data !! pf_executable_name pf_data
  = Some match progs !! pf_executable_name pf_data with
         | None => new_program pf_data
         | Some prog => update_program prog pf_data
         end.
Proof.
  unfold add_program.
  destruct (progs !! pf_executable_name pf_data); apply lookup_insert_eq.
Qed.

Lemma add_program_lookup_ne (progs : gmap string ProgramAggregate)
    (pf_data : PrefetchRecord) (name : string) :
  name <> pf_executable_name pf_data ->
  add_program progs pf_data !! name = progs !! name.
Proof.
  intros Hne. unfold add_program.
  destruct (progs !! pf_executable_name pf_data); by apply lookup_insert_ne.
Qed.

(** The aggregate of a name after one more record, from what was there
    before ([None] when the name is new). *)
Lemma merged_times_elem (base : option ProgramAggregate) (r : PrefetchRecord)
    (t : datetime) :
  t ∈ prog_execution_times
        match base with
        | None => new_program r
        | Some prog => update_program prog r
        end
  <-> t ∈ from_option prog_execution_times [] base \/ t ∈ pf_execution_times r.
Proof.
  destruct base as [prog|]; cbn.
  - apply merge_times_elem.
  - split; [by right|]. intros [H|H]; [|done]. by apply elem_of_nil in H.
Qed.

Lemma merged_empty_bounds (base : option ProgramAggregate) (r : PrefetchRecord) :
  pf_last_execution r = head (pf_execution_times r) ->
  let prog' := match base with
               | None => new_program r
               | Some prog => update_program prog r
               end in
  prog_execution_times prog' = [] ->
  prog_last_execution prog' = base ≫= prog_last_execution
  /\ prog_first_execution prog' = base ≫= prog_first_execution.
Proof.
  intros Hhead. destruct base as [prog|]; cbn.
  - intros ->. done.
  - intros Hnil. rewrite Hhead, Hnil. done.
Qed.

Lemma nil_of_no_elem {A : Type} (l : list A) : (forall x, x ∉ l) -> l = [].
Proof.
  destruct l as [|a l]; [done|]. intros H. by destruct (H a); left.
Qed.

Lemma two_merges_commute (base : option ProgramAggregate) (A B : PrefetchRecord) :
  pf_last_execution A = head (pf_execution_times A) ->
  pf_last_execution B = head (pf_execution_times B) ->
  let ab := update_program match base with
                           | None => new_program A
                           | Some prog => update_program prog A
                           end B in
  let ba := update_program match base with
                           | None => new_program B
                           | Some prog => update_program prog B
                           end A in
  prog_run_count ab = prog_run_count ba
  /\ (forall t, t ∈ prog_execution_times ab <-> t ∈ prog_execution_times ba)
  /\ prog_first_execution ab = prog_first_execution ba
  /\ prog_last_execution ab = prog_last_execution ba.
Proof.
  intros HA HB ab ba.
  set (xa := match base with None => new_program A
             | Some prog => update_program prog A end) in *.
  set (xb := match base with None => new_program B
             | Some prog => update_program prog B end) in *.
  assert (Hset : forall t, t ∈ prog_execution_times ab
                           <-> t ∈ prog_execution_times ba).
  { intros t. subst ab ba. cbn.
    rewrite !merge_times_elem. subst xa xb. rewrite !merged_times_elem. tauto. }
  split.
  { subst ab ba xa xb. destruct base; cbn; lia. }
  split; [exact Hset|].
  destruct (update_program_bounds xa B) as [Hla Hfa].
  destruct (update_program_bounds xb A) as [Hlb Hfb].
  fold ab in Hla, Hfa. fold ba in Hlb, Hfb.
  rewrite Hla, Hfa, Hlb, Hfb.
  rewrite (times_max_ext _ _ Hset), (times_min_ext _ _ Hset).
  destruct (prog_execution_times ba) as [|u us] eqn:Hba; [|done].
  assert (Hab : prog_execution_times ab = []).
  { apply nil_of_no_elem. intros x Hx. apply Hset in Hx.
    by apply elem_of_nil in Hx. }
  assert (Hxa : prog_execution_times xa = []).
  { apply nil_of_no_elem. intros x Hx.
    eapply (not_elem_of_nil x). rewrite <- Hab. subst ab. cbn.
    apply merge_times_elem. by left. }
  assert (Hxb : prog_execution_times xb = []).
  { apply nil_of_no_elem. intros x Hx.
    eapply (not_elem_of_nil x). rewrite <- Hba. subst ba. cbn.
    apply merge_times_elem. by left. }
  destruct (merged_empty_bounds base A HA Hxa) as [Ea1 Ea2].
  destruct (merged_empty_bounds base B HB Hxb) as [Eb1 Eb2].
  cbn. fold xa in Ea1, Ea2. fold xb in Eb1, Eb2.
  split; congruence.
Qed.

Section AggregateFacts.

Variable decode_utf16le : list byte -> string.

Lemma parse_prefetch_file_record (self : Analyzer) (pf_path : PfPath)
    (rec : PrefetchRecord) :
  fst (_parse_prefetch_file decode_utf16le self pf_path) = Done (Some rec) ->
  record_ok pf_path rec.
Proof.
  unfold _parse_prefetch_file.
  destruct (path_read pf_path) as [data|]; [|discriminate].
  destruct (decide _).
  - destruct (decompress_mam_done data) as (d & -> & _).
    destruct (truthy d); cbn [negb fst]; [|discriminate].
    destruct (parse_header_spec decode_utf16le (default [] d) pf_path)
      as (r & -> & Hr).
    cbn [try_except]. intros [= ->]. by apply Hr.
  - destruct (parse_header_spec decode_utf16le data pf_path) as (r & -> & Hr).
    cbn [fst try_except]. intros [= ->]. by apply Hr.
Qed.

(** C4.  For two parsed records with the same executable name, merging
    one then the other into the programs gives an aggregate with the same
    run count, the same set of execution times and the same first and last
    execution as merging them the other way round, whatever the programs
    held before. *)
Theorem merge_commutes (self self_a self_b : Analyzer)
    (path_a path_b : PfPath) (A B : PrefetchRecord) :
  fst (_parse_prefetch_file decode_utf16le self_a path_a) = Done (Some A) ->
  fst (_parse_prefetch_file decode_utf16le self_b path_b) = Done (Some B) ->
  pf_executable_name A = pf_executable_name B ->
  exists ab ba,
    programs (_add_to_programs (_add_to_programs self A) B)
      !! pf_executable_name A = Some ab
    /\ programs (_add_to_programs (_add_to_programs self B) A)
         !! pf_executable_name A = Some ba
    /\ prog_run_count ab = prog_run_count ba
    /\ (forall t, t ∈ prog_execution_times ab <-> t ∈ prog_execution_times ba)
    /\ prog_first_execution ab = prog_first_execution ba
    /\ prog_last_execution ab = prog_last_execution ba.
Proof.
  intros HA HB Hname.
  apply parse_prefetch_file_record in HA as (HA & _).
  apply parse_prefetch_file_record in HB as (HB & _).
  cbn [_add_to_programs programs].
  set (base := programs self !! pf_executable_name A).
  eexists _, _. split; [|split].
  - rewrite Hname, add_program_lookup.
    rewrite <- Hname, add_program_lookup. fold base. reflexivity.
  - rewrite add_program_lookup.
    rewrite Hname, add_program_lookup, <- Hname. fold base. reflexivity.
  - by apply two_merges_commute.
Qed.

End AggregateFacts.

Lemma merge_commutes_witness :
  exists ab ba,
    programs (_add_to_programs (_add_to_programs init unsorted_record) later_record)
      !! pf_executable_name unsorted_record = Some ab
    /\ programs (_add_to_programs (_add_to_programs init later_record) unsorted_record)
         !! pf_executable_name unsorted_record = Some ba
    /\ prog_run_count ab = prog_run_count ba
    /\ (forall t, t ∈ prog_execution_times ab <-> t ∈ prog_execution_times ba)
    /\ prog_first_execution ab = prog_first_execution ba
    /\ prog_last_execution ab = prog_last_execution ba.
Proof.
  apply (merge_commutes low_bytes init init init unsorted_file later_file
           unsorted_record later_record).
  - vm_compute. reflexivity.
  - vm_compute. reflexivity.
  - reflexivity.
Defined.

Lemma add_programs_keep (later : list PrefetchRecord) (self : Analyzer)
    (name : string) (prog : ProgramAggregate) :
  programs self !! name = Some prog ->
  exists prog',
    programs (foldl _add_to_programs self later) !! name = Some prog'
    /\ prog_version prog' = prog_version prog
    /\ prog_name prog' = prog_name prog.
Proof.
  revert self prog. induction later as [|r later IH]; intros self prog Hprog.
  - by exists prog.
  - cbn [foldl].
    destruct (decide (name = pf_executable_name r)) as [->|Hne].
    + destruct (IH (_add_to_programs self r) (update_program prog r))
        as (prog' & Hl & Hv & Hn).
      { cbn [_add_to_programs programs]. by rewrite add_program_lookup, Hprog. }
      by exists prog'.
    + apply IH. cbn [_add_to_programs programs].
      by rewrite add_program_lookup_ne.
Qed.

(** C9.  Merging a record into an aggregate that already exists leaves the
    aggregate's version and name as they were; they stay so through any
    number of later records, whatever their versions, and are those seeded
    by the first record merged under that executable name. *)
Theorem merge_keeps_version_and_name (self : Analyzer) (pf_data : PrefetchRecord) :
  (forall prog,
     programs self !! pf_executable_name pf_data = Some prog ->
     exists prog',
       programs (_add_to_programs self pf_data) !! pf_executable_name pf_data
       = Some prog'
       /\ prog_version prog' = prog_version prog
       /\ prog_name prog' = prog_name prog)
  /\ (forall later name prog,
        programs self !! name = Some prog ->
        exists prog',
          programs (foldl _add_to_programs self later) !! name = Some prog'
          /\ prog_version prog' = prog_version prog
          /\ prog_name prog' = prog_name prog)
  /\ (programs self !! pf_executable_name pf_data = None ->
      forall later, exists prog',
        programs (foldl _add_to_programs (_add_to_programs self pf_data) later)
          !! pf_executable_name pf_data = Some prog'
        /\ prog_version prog' = pf_version pf_data
        /\ prog_name prog' = pf_executable_name pf_data).
Proof.
  split; [|split].
  - intros prog Hprog. exists (update_program prog pf_data).
    cbn [_add_to_programs programs]. by rewrite add_program_lookup, Hprog.
  - intros later name prog. apply add_programs_keep.
  - intros Hnew later.
    apply (add_programs_keep later (_add_to_programs self pf_data)
             (pf_executable_name pf_data) (new_program pf_data)).
    cbn [_add_to_programs programs]. by rewrite add_program_lookup, Hnew.
Qed.

Lemma merge_keeps_version_and_name_witness :
  exists prog',
    programs (foldl _add_to_programs (_add_to_programs init unsorted_record)
                    [later_record])
      !! pf_executable_name unsorted_record = Some prog'
    /\ prog_version prog' = 26
    /\ prog_name prog' = pf_executable_name unsorted_record.
Proof.
  destruct (merge_keeps_version_and_name init unsorted_record) as (_ & _ & H).
  apply (H eq_refl [later_record]).
Defined.

(** C3, evaluated on [unsorted_file].  The first sighting of a name takes
    [last_execution] from the record, that is the first slot of the file,
    where a later sighting recomputes it as the maximum: for a version-26
    file whose slots hold the FILETIMEs 100 and 200 in this order, the
    aggregate built from that single record has the execution times 10 and
    20 and the last execution 10. *)
Theorem first_sighting_last_execution :
  exists prog,
    fst (_parse_prefetch_file low_bytes init unsorted_file)
    = Done (Some unsorted_record)
    /\ programs (snd (analyze_file low_bytes init unsorted_file)) !! "A.EXE"%string
       = Some prog
    /\ prog_execution_times prog = [10; 20]
    /\ times_max (prog_execution_times prog) = Some 20
    /\ prog_last_execution prog = Some 10
    /\ prog_first_execution prog = times_min (prog_execution_times prog).
Proof.
  eexists. split; [vm_compute; reflexivity|].
  split; [vm_compute; reflexivity|]. cbn. done.
Qed.

(** ** More on the LZNT1 engine *)

Lemma byte_val_of (n : Z) : 0 <= n < 256 -> byte_val (byte_of n) = n.
Proof.
  intros Hn. unfold byte_val, byte_of.
  rewrite Z.mod_small by lia.
  destruct (Byte.of_N (Z.to_N n)) as [b|] eqn:Hb.
  - apply Byte.to_of_N in Hb. simpl. lia.
  - pose proof (Byte.to_of_N_option_map (Z.to_N n)) as Hm.
    rewrite Hb in Hm. simpl in Hm.
    destruct (N.leb_spec (Z.to_N n) 255); [discriminate|lia].
Qed.

Lemma le_value_bytes (width : nat) (n : Z) :
  0 <= n -> le_value (le_bytes width n) = n mod 256 ^ Z.of_nat width.
Proof.
  revert n. induction width as [|w IH]; intros n Hn.
  - simpl. by rewrite Z.mod_1_r.
  - cbn [le_bytes le_value foldr]. fold (le_value (le_bytes w (n / 256))).
    rewrite IH by (apply Z.div_pos; lia).
    unfold byte_of.
    assert (Hb : byte_val (byte_of (n mod 256)) = n mod 256)
      by (apply byte_val_of, Z.mod_pos_bound; lia).
    unfold byte_of in Hb. rewrite Z.mod_mod in Hb by lia. rewrite Hb.
    rewrite Nat2Z.inj_succ, Z.pow_succ_r by lia.
    rewrite Z.rem_mul_r by (try apply Z.pow_pos_nonneg; lia). lia.
Qed.

Lemma le_bytes_length (width : nat) (n : Z) : length (le_bytes width n) = width.
Proof.
  revert n. induction width as [|w IH]; intros n; simpl; [done|].
  by rewrite IH.
Qed.

Lemma slice_app_header (hdr rest : list byte) (k : nat) :
  slice (hdr ++ rest) (length hdr) (length hdr + k) = take k rest.
Proof.
  unfold slice. rewrite drop_app_length. f_equal. lia.
Qed.

Lemma slice_header (hdr rest : list byte) :
  slice (hdr ++ rest) 0 (length hdr) = hdr.
Proof.
  unfold slice. rewrite drop_0, Nat.sub_0_r. by rewrite take_app_length.
Qed.

(** Each turn of the copy appends one byte, whichever branch it takes. *)
Lemma copy_from_window_grows (k : nat) (st : nat * list byte) :
  exists copied,
    snd (copy_from_window k st) = snd st ++ copied /\ length copied = k.
Proof.
  induction k as [|k IH].
  - exists []. by rewrite app_nil_r.
  - destruct IH as (copied & Heq & Hlen).
    rewrite copy_from_window_S.
    destruct (copy_from_window k st) as [sp out]. simpl in Heq. subst out.
    unfold copy_step.
    destruct (_ !! sp) as [b|].
    + exists (copied ++ [b]). simpl. rewrite <- app_assoc.
      split; [done|]. rewrite length_app. simpl. lia.
    + exists (copied ++ [Byte.x00]). simpl. rewrite <- app_assoc.
      split; [done|]. rewrite length_app. simpl. lia.
Qed.

Lemma match_length_range (output_size : nat) (token : Z) :
  3 <= match_length output_size token <= 4098.
Proof.
  unfold match_length, length_mask.
  assert (Hlb : 0 <= length_bits output_size <= 12).
  { rewrite length_bits_cases. repeat destruct (_ <? _); lia. }
  rewrite land_low_bits by lia.
  assert (0 < 2 ^ length_bits output_size) by (apply Z.pow_pos_nonneg; lia).
  pose proof (Z.mod_pos_bound token (2 ^ length_bits output_size) ltac:(lia)).
  assert (2 ^ length_bits output_size <= 2 ^ 12)
    by (apply Z.pow_le_mono_r; lia).
  change (2 ^ 12) with 4096 in *. lia.
Qed.

(** X3.  A back-reference keeps what was already produced and appends
    exactly [match_length] bytes, between 3 and 4098, whether its distance
    is valid or not. *)
Theorem backref_grows_by_match_length (output : list byte) (token : Z) :
  exists copied,
    backref output token = output ++ copied
    /\ Z.of_nat (length copied) = match_length (length output) token
    /\ (3 <= length copied <= 4098)%nat.
Proof.
  pose proof (match_length_range (length output) token) as Hml.
  unfold backref. destruct (decide _).
  - eexists. split; [done|]. rewrite length_replicate. lia.
  - destruct (copy_from_window_grows
                (Z.to_nat (match_length (length output) token))
                ((length output - Z.to_nat (match_distance (length output) token))%nat,
                 output)) as (copied & Heq & Hlen).
    exists copied. split; [done|]. lia.
Qed.

(** X2.  A back-reference with a valid distance [d] repeats the last [d]
    bytes of the output periodically, also when the copy overlaps what it
    writes: the [i]-th byte appended is the byte at offset [i mod d] of that
    window.  With distance 1 it repeats the last byte [match_length]
    times. *)
Theorem backref_repeats_window (output : list byte) (token : Z) :
  0 <= token ->
  match_distance (length output) token <= Z.of_nat (length output) ->
  let n := Z.to_nat (match_length (length output) token) in
  let d := Z.to_nat (match_distance (length output) token) in
  exists copied,
    backref output token = output ++ copied
    /\ length copied = n
    /\ (forall i, (i < n)%nat ->
          copied !! i = output !! (length output - d + i mod d)%nat)
    /\ (d = 1%nat -> forall b, last output = Some b -> copied = replicate n b).
Proof.
  intros Htok Hdist n d.
  pose proof (match_distance_pos (length output) token Htok) as Hpos.
  assert (Hd : (1 <= d <= length output)%nat) by (subst d; lia).
  destruct (copy_from_window_inv n (length output - d) output ltac:(lia))
    as (copied & Heq & Hlen & Hcopy).
  assert (Hper : forall i, (i < n)%nat ->
            copied !! i = output !! (length output - d + i mod d)%nat).
  { intros i. induction i as [i IH] using lt_wf_ind. intros Hi.
    specialize (Hcopy i Hi).
    rewrite lookup_app_r in Hcopy by lia.
    replace (length output + i - length output)%nat with i in Hcopy by lia.
    rewrite Hcopy.
    destruct (decide (i < d)%nat) as [Hlt|Hge].
    - rewrite lookup_app_l by lia. by rewrite Nat.mod_small.
    - rewrite lookup_app_r by lia.
      replace (length output - d + i - length output)%nat with (i - d)%nat by lia.
      rewrite IH by lia. f_equal. f_equal.
      replace i with ((i - d) + 1 * d)%nat at 2 by lia.
      by rewrite Nat.Div0.mod_add. }
  exists copied. split.
  { unfold backref. fold n d. destruct (decide _); [lia|]. by rewrite Heq. }
  split; [done|]. split; [done|].
  intros Hd1 b Hlast. apply list_eq. intros i.
  destruct (decide (i < n)%nat) as [Hi|Hi].
  - rewrite Hper by done. rewrite Hd1, Nat.mod_1_r, Nat.add_0_r.
    rewrite lookup_replicate_2 by done.
    rewrite last_lookup in Hlast. rewrite <- Hlast. f_equal. lia.
  - rewrite lookup_ge_None_2 by lia.
    symmetry. apply lookup_ge_None_2. rewrite length_replicate. lia.
Qed.

Lemma backref_repeats_window_witness :
  backref [Byte.x41] 0x0010 = [Byte.x41] ++ replicate 19 Byte.x41.
Proof.
  destruct (backref_repeats_window [Byte.x41] 0x0010)
    as (copied & Heq & Hlen & _ & Hrun).
  - lia.
  - vm_compute. discriminate.
  - rewrite Heq. f_equal. apply (Hrun eq_refl Byte.x41 eq_refl).
Defined.

Lemma land_below_bit (h k : Z) : 0 <= k -> 0 <= h < 2 ^ k -> Z.land h (2 ^ k) = 0.
Proof.
  intros Hk Hh. apply Z.bits_inj'. intros i Hi.
  rewrite Z.land_spec, Z.bits_0, Z.pow2_bits_eqb by lia.
  destruct (Z.eqb_spec k i) as [<-|]; [|apply andb_false_r].
  rewrite andb_true_r.
  destruct (decide (h = 0)) as [->|Hnz]; [apply Z.bits_0|].
  apply Z.bits_above_log2; [lia|]. apply Z.log2_lt_pow2; lia.
Qed.

Lemma slice_middle (a b c : list byte) :
  slice (a ++ b ++ c) (length a) (length a + length b) = b.
Proof. rewrite slice_app_header. by rewrite take_app_length. Qed.

(** The loop over the chunks on a stream that starts with one uncompressed
    chunk and then ends or reaches the zero header. *)
Lemma stream_loop_stored (payload tail : list byte) (n fuel : nat) :
  (2 <= length payload <= 4096)%nat ->
  tail = [] \/ (exists rest, tail = Byte.x00 :: Byte.x00 :: rest) ->
  (2 <= fuel)%nat ->
  stream_loop fuel (stored_chunk payload ++ tail) n 0 []
  = Done (if decide (n = 0)%nat then [] else payload).
Proof.
  intros Hlen Htail Hfuel.
  set (h := Z.of_nat (length payload) - 1).
  set (hdr := le_bytes 2 h).
  assert (Hhdr : length hdr = 2%nat) by apply le_bytes_length.
  assert (Hdata : stored_chunk payload ++ tail = hdr ++ payload ++ tail)
    by (unfold stored_chunk; by rewrite <- app_assoc).
  rewrite Hdata. set (data := hdr ++ payload ++ tail).
  assert (Hdlen : length data = (2 + length payload + length tail)%nat).
  { subst data. rewrite !length_app. lia. }
  rewrite stream_loop_eq.
  destruct (decide _) as [[_ Hn]|Hn]; simpl in Hn;
    [|destruct (decide (n = 0)%nat); [done | lia]].
  destruct (decide (n = 0)%nat) as [|_]; [lia|].
  destruct (decide _) as [|_]; [lia|].
  destruct fuel as [|fuel]; [lia|].
  assert (Hh : struct_unpack 2 (slice data 0 (0 + 2)) = Done h).
  { rewrite struct_unpack_in_range by lia. f_equal.
    change (0 + 2)%nat with 2%nat. rewrite <- Hhdr. subst data.
    rewrite slice_header. subst hdr. rewrite le_value_bytes by lia.
    apply Z.mod_small. change (256 ^ Z.of_nat 2) with 65536. lia. }
  rewrite Hh. cbn [bind]. cbv zeta.
  destruct (h =? 0) eqn:Hz; [apply Z.eqb_eq in Hz; lia|].
  assert (Hsize : Z.land h 0x0FFF = h).
  { change 0x0FFF with (Z.ones 12). rewrite Z.land_ones by lia.
    apply Z.mod_small. change (2 ^ 12) with 4096. lia. }
  assert (Hbit : Z.land h 0x8000 = 0).
  { change 0x8000 with (2 ^ 15). apply land_below_bit; [lia|].
    change (2 ^ 15) with 32768. lia. }
  rewrite Hsize, Hbit. cbn [Z.eqb negb].
  replace (0 + 2 + Z.to_nat (h + 1))%nat with (length hdr + length payload)%nat
    by lia.
  replace (0 + 2)%nat with (length hdr) by lia.
  subst data. rewrite slice_middle. cbn [app].
  set (data := hdr ++ payload ++ tail) in *.
  rewrite stream_loop_eq.
  destruct (decide _) as [[Hpos Hmore]|_]; [|done].
  destruct Htail as [Ht | [rest Ht]].
  { assert (length tail = 0%nat) by (by rewrite Ht). lia. }
  assert (Htl : length tail = S (S (length rest))) by (by rewrite Ht).
  destruct (decide _) as [|_]; [done|].
  destruct fuel as [|fuel]; [lia|].
  assert (Hz' : struct_unpack 2
                  (slice data (length hdr + length payload)
                         (length hdr + length payload + 2)) = Done 0).
  { rewrite struct_unpack_in_range by lia. f_equal.
    subst data. rewrite Ht, app_assoc.
    change (Byte.x00 :: Byte.x00 :: rest) with ([Byte.x00; Byte.x00] ++ rest).
    rewrite <- (length_app hdr payload).
    pose proof (slice_middle (hdr ++ payload) [Byte.x00; Byte.x00] rest) as Hs.
    change (length [Byte.x00; Byte.x00]) with 2%nat in Hs.
    rewrite Hs. reflexivity. }
  rewrite Hz'. reflexivity.
Qed.

(** X1.  An uncompressed chunk of 2 to 4096 bytes, followed by the end of
    the stream or by the zero header and anything after it, decompresses to
    its payload cut at the target size: what follows the zero header is
    never read. *)
Theorem stored_chunk_decompresses (payload tail : list byte) (n : nat) :
  (2 <= length payload <= 4096)%nat ->
  tail = [] \/ (exists rest, tail = Byte.x00 :: Byte.x00 :: rest) ->
  _lznt1_decompress (stored_chunk payload ++ tail) n
  = Done (Some (take n payload)).
Proof.
  intros Hlen Htail. unfold _lznt1_decompress.
  rewrite stream_loop_stored; [|done|done|].
  - cbn [bind try_except]. destruct (decide (n = 0)%nat) as [->|]; [|done].
    by rewrite !take_0.
  - rewrite length_app. unfold stored_chunk. rewrite length_app, le_bytes_length.
    lia.
Qed.


Lemma stored_chunk_decompresses_witness :
  _lznt1_decompress
    (stored_chunk [Byte.x41; Byte.x42; Byte.x43]
     ++ [Byte.x00; Byte.x00; Byte.xff]) 2
  = Done (Some [Byte.x41; Byte.x42]).
Proof.
  apply (stored_chunk_decompresses [Byte.x41; Byte.x42; Byte.x43]
           [Byte.x00; Byte.x00; Byte.xff] 2).
  - simpl. lia.
  - right. exists [Byte.xff]. reflexivity.
Defined.

Lemma slice_empty (data : list byte) (pos : nat) : slice data pos (pos + 0) = [].
Proof. unfold slice. replace (pos + 0 - pos)%nat with 0%nat by lia. apply take_0. Qed.

Lemma slice_cons (data : list byte) (pos k : nat) (b : byte) :
  data !! pos = Some b ->
  slice data pos (pos + S k) = b :: slice data (pos + 1) (pos + 1 + k).
Proof.
  intros Hb. unfold slice.
  replace (pos + S k - pos)%nat with (S k) by lia.
  replace (pos + 1 + k - (pos + 1))%nat with k by lia.
  rewrite (drop_S _ _ _ Hb). simpl. by rewrite Nat.add_1_r.
Qed.

(** A flag byte of zero makes every token of the group a literal: the group
    copies bytes verbatim until it has done so for each flag, or reaches the
    end of the chunk, the end of the input or the target size. *)
Lemma token_loop_literals (data : list byte) (n chunk_end : nat)
    (bits : list Z) (pos : nat) (output : list byte) :
  let k := (length bits `min` ((chunk_end - pos) `min`
              ((length data - pos) `min` (n - length output))))%nat in
  token_loop data n chunk_end 0 bits pos output
  = Done ((pos + k)%nat, output ++ slice data pos (pos + k)).
Proof.
  revert pos output. induction bits as [|bit bits IH]; intros pos output k.
  - subst k. cbn [token_loop length Nat.min].
    by rewrite slice_empty, Nat.add_0_r, app_nil_r.
  - cbn [token_loop].
    destruct (decide (n <= length output)%nat) as [Hn|Hn].
    { replace k with 0%nat by lia.
      by rewrite slice_empty, Nat.add_0_r, app_nil_r. }
    destruct (decide (chunk_end <= pos)%nat) as [Hc|Hc].
    { replace k with 0%nat by lia.
      by rewrite slice_empty, Nat.add_0_r, app_nil_r. }
    rewrite Z.land_0_l. cbn [Z.eqb negb].
    destruct (decide (length data <= pos)%nat) as [Hd|Hd].
    { replace k with 0%nat by lia.
      by rewrite slice_empty, Nat.add_0_r, app_nil_r. }
    destruct (byte_at_in_range data pos) as (b & Hb & ->); [lia|]. cbn [bind].
    rewrite IH. rewrite length_app. cbn [length].
    set (k' := (length bits `min` ((chunk_end - (pos + 1)) `min`
                 ((length data - (pos + 1)) `min`
                    (n - (length output + 1)))))%nat).
    assert (Hk : k = S k') by (subst k k'; cbn [length]; lia).
    rewrite Hk, (slice_cons data pos k' b Hb), <- app_assoc.
    do 2 f_equal. lia.
Qed.

Lemma chunk_loop_exit (fuel : nat) (data : list byte) (n chunk_end pos : nat)
    (output : list byte) :
  (chunk_end <= pos \/ n <= length output)%nat ->
  chunk_loop fuel data n chunk_end pos output = Done (pos, output).
Proof.
  intros H. rewrite chunk_loop_eq. destruct (decide _); [lia | done].
Qed.

Lemma stream_loop_exit (fuel : nat) (data : list byte) (n pos : nat)
    (output : list byte) :
  (length data <= pos \/ n <= length output)%nat ->
  stream_loop fuel data n pos output = Done output.
Proof.
  intros H. rewrite stream_loop_eq. destruct (decide _); [lia | done].
Qed.

(** X4.  A compressed chunk that consists of one flag byte of zero followed
    by one to eight literal bytes decompresses to those bytes, cut at the
    target size. *)
Theorem literal_chunk_decompresses (literals : list byte) (n : nat) :
  (1 <= length literals <= 8)%nat ->
  _lznt1_decompress (literal_chunk literals) n = Done (Some (take n literals)).
Proof.
  intros Hlen. unfold _lznt1_decompress.
  set (m := length literals) in *.
  set (h := 0x8000 + Z.of_nat m).
  set (hdr := le_bytes 2 h).
  assert (Hhdr : length hdr = 2%nat) by apply le_bytes_length.
  assert (Hdata : literal_chunk literals = hdr ++ [Byte.x00] ++ literals)
    by reflexivity.
  rewrite Hdata. set (data := hdr ++ [Byte.x00] ++ literals).
  assert (Hdlen : length data = (3 + m)%nat).
  { subst data. rewrite !length_app, Hhdr. cbn [length]. lia. }
  assert (Hgoal : forall fuel, (1 <= fuel)%nat ->
            stream_loop fuel data n 0 [] = Done (take n literals)).
  { intros fuel Hfuel. rewrite stream_loop_eq.
    destruct (decide _) as [[_ Hn]|Hn]; cbn [length] in Hn;
      [|replace n with 0%nat by lia; by rewrite take_0].
    destruct (decide _) as [|_]; [lia|].
    destruct fuel as [|fuel]; [lia|].
    assert (Hh : struct_unpack 2 (slice data 0 (0 + 2)) = Done h).
    { rewrite struct_unpack_in_range by lia. f_equal.
      change (0 + 2)%nat with 2%nat. rewrite <- Hhdr. subst data.
      rewrite slice_header. subst hdr. rewrite le_value_bytes by lia.
      apply Z.mod_small. change (256 ^ Z.of_nat 2) with 65536. lia. }
    rewrite Hh. cbn [bind]. cbv zeta.
    destruct (h =? 0) eqn:Hz; [apply Z.eqb_eq in Hz; lia|].
    assert (Hland : Z.land h 0x0FFF = Z.of_nat m /\ Z.land h 0x8000 = 0x8000).
    { assert (Hm : (m = 1 \/ m = 2 \/ m = 3 \/ m = 4 \/ m = 5 \/ m = 6
                    \/ m = 7 \/ m = 8)%nat) by lia.
      subst h. destruct Hm as [-> | [-> | [-> | [-> | [-> | [-> | [-> | ->]]]]]]];
        by vm_compute. }
    destruct Hland as [-> ->]. cbn [Z.eqb negb].
    replace (0 + 2 + Z.to_nat (Z.of_nat m + 1))%nat with (3 + m)%nat by lia.
    rewrite chunk_loop_eq.
    destruct (decide _) as [_|Hx]; [|cbn [length] in Hx; lia].
    destruct (decide _) as [|_]; [lia|].
    destruct (length data) as [|fuel'] eqn:Hl; [lia|].
    destruct (byte_at_in_range data (0 + 2)) as (b & Hb & ->); [lia|].
    assert (b = Byte.x00) as ->.
    { subst data. rewrite lookup_app_r in Hb by lia.
      rewrite Hhdr in Hb. by injection Hb. }
    cbn [bind]. change (byte_val Byte.x00) with 0.
    rewrite token_loop_literals. cbn [bind app].
    set (k := (length (seqZ 0 8) `min` _)%nat).
    assert (Hk : k = (m `min` n)%nat).
    { subst k. rewrite length_seqZ. cbn [length]. lia. }
    assert (Hslice : slice data (0 + 2 + 1) (0 + 2 + 1 + k) = take k literals).
    { subst data. rewrite app_assoc.
      pose proof (slice_app_header (hdr ++ [Byte.x00]) literals k) as Hs.
      rewrite length_app, Hhdr in Hs. exact Hs. }
    rewrite Hslice.
    assert (Hlk : length (take k literals) = k)
      by (rewrite length_take; fold m; lia).
    rewrite chunk_loop_exit by lia. cbn [bind].
    rewrite stream_loop_exit by lia.
    f_equal. rewrite Hk. destruct (decide (m <= n)%nat).
    - rewrite Nat.min_l by done.
      by rewrite !take_ge by (fold m; lia).
    - by rewrite Nat.min_r by lia. }
  rewrite Hgoal by lia. cbn [bind try_except].
  by rewrite take_take, Nat.min_id.
Qed.

Lemma literal_chunk_decompresses_witness :
  _lznt1_decompress (literal_chunk [Byte.x41; Byte.x42; Byte.x43]) 2
  = Done (Some [Byte.x41; Byte.x42]).
Proof.
  apply (literal_chunk_decompresses [Byte.x41; Byte.x42; Byte.x43] 2).
  simpl. lia.
Defined.

(** ** The MAM container *)

(** X5.  [_decompress_mam] never raises.  When it returns data, the buffer
    carries the MAM signature and at least eight bytes, the data is not
    empty, its length is the declared size, and it is what the LZNT1 engine
    returns for the payload.  A buffer without the signature, a buffer of
    fewer than eight bytes and a container declaring the size zero all give
    [None]. *)
Theorem decompress_mam_result (compressed_data : list byte) :
  (exists r, _decompress_mam compressed_data = Done r)
  /\ (forall out,
        _decompress_mam compressed_data = Done (Some out) ->
        take 4 compressed_data = MAM_SIGNATURE
        /\ (8 <= length compressed_data)%nat
        /\ (0 < length out)%nat
        /\ struct_unpack 4 (slice compressed_data 4 8)
           = Done (Z.of_nat (length out))
        /\ _lznt1_decompress (drop 8 compressed_data) (length out)
           = Done (Some out))
  /\ (take 4 compressed_data <> MAM_SIGNATURE ->
      _decompress_mam compressed_data = Done None)
  /\ ((length compressed_data < 8)%nat ->
      _decompress_mam compressed_data = Done None)
  /\ (struct_unpack 4 (slice compressed_data 4 8) = Done 0 ->
      _decompress_mam compressed_data = Done None).
Proof.
  split; [|split; [|split; [|split]]].
  - destruct (decompress_mam_done compressed_data) as (r & Hr & _). eauto.
  - intros out. unfold _decompress_mam.
    destruct (decide _) as [|Hsig]; [discriminate|].
    apply dec_stable in Hsig.
    destruct (struct_unpack 4 _) as [size| |] eqn:Hu; cbn [bind try_except];
      [|discriminate|discriminate].
    destruct (lznt1_decompress_done (drop 8 compressed_data) (Z.to_nat size))
      as (out' & Hout & _).
    rewrite Hout. cbn [bind].
    destruct (truthy (Some out') && _) eqn:Hc; cbn [try_except]; [|discriminate].
    intros [= ->].
    apply andb_true_iff in Hc as [Ht Hsz].
    apply bool_decide_eq_true in Hsz. cbn in Hsz.
    destruct (truthy_Some _ Ht) as (d & [= <-] & Hpos).
    split; [done|]. split.
    { unfold struct_unpack in Hu. destruct (decide _) as [Hl|]; [|discriminate].
      unfold slice in Hl. rewrite length_take, length_drop in Hl. lia. }
    split; [done|]. rewrite Hsz. split; [done|].
    rewrite <- Hsz, Nat2Z.id in Hout. done.
  - intros Hsig. unfold _decompress_mam. by destruct (decide _).
  - intros Hshort. unfold _decompress_mam. destruct (decide _); [done|].
    unfold struct_unpack. destruct (decide _) as [Hl|]; [|done].
    unfold slice in Hl. rewrite length_take, length_drop in Hl. lia.
  - intros Hzero. unfold _decompress_mam. destruct (decide _); [done|].
    rewrite Hzero. cbn [bind].
    destruct (lznt1_decompress_done (drop 8 compressed_data) (Z.to_nat 0))
      as (out & -> & Hlen).
    cbn [bind]. change (Z.to_nat 0) with 0%nat in Hlen.
    destruct out; [done | simpl in Hlen; lia].
Qed.

Lemma decompress_mam_result_witness :
  _decompress_mam (MAM_SIGNATURE ++ le_bytes 4 0 ++ [Byte.x41]) = Done None.
Proof.
  destruct (decompress_mam_result (MAM_SIGNATURE ++ le_bytes 4 0 ++ [Byte.x41]))
    as (_ & _ & _ & _ & H).
  apply H. reflexivity.
Defined.

Lemma stored_mam_parts (payload : list byte) :
  take 4 (stored_mam payload) = MAM_SIGNATURE
  /\ slice (stored_mam payload) 4 8 = le_bytes 4 (Z.of_nat (length payload))
  /\ drop 8 (stored_mam payload) = stored_chunk payload.
Proof.
  unfold stored_mam. split; [done|]. split.
  - change 4%nat with (length MAM_SIGNATURE) at 1.
    change 8%nat with (length MAM_SIGNATURE + 4)%nat.
    rewrite slice_app_header.
    rewrite <- (le_bytes_length 4 (Z.of_nat (length payload))) at 1.
    by rewrite take_app_length.
  - rewrite app_assoc.
    assert (Hl : length (MAM_SIGNATURE ++ le_bytes 4 (Z.of_nat (length payload)))
                 = 8%nat) by (rewrite length_app, le_bytes_length; done).
    rewrite <- Hl. apply drop_app_length.
Qed.

(** X6.  Round trip through the container: a MAM container that declares
    the length of a payload of 2 to 4096 bytes and stores it as one
    uncompressed chunk decompresses to exactly that payload. *)
Theorem stored_mam_round_trip (payload : list byte) :
  (2 <= length payload <= 4096)%nat ->
  _decompress_mam (stored_mam payload) = Done (Some payload).
Proof.
  intros Hlen. destruct (stored_mam_parts payload) as (Hsig & Hsize & Hpay).
  unfold _decompress_mam. destruct (decide _) as [|_]; [done|].
  rewrite Hsize, Hpay.
  assert (Hu : struct_unpack 4 (le_bytes 4 (Z.of_nat (length payload)))
               = Done (Z.of_nat (length payload))).
  { unfold struct_unpack. rewrite le_bytes_length.
    destruct (decide _); [|done]. f_equal.
    rewrite le_value_bytes by lia. apply Z.mod_small.
    change (256 ^ Z.of_nat 4) with 4294967296. lia. }
  rewrite Hu. cbn [bind]. rewrite Nat2Z.id.
  unfold _lznt1_decompress.
  pose proof (stream_loop_stored payload [] (length payload)
                (length (stored_chunk payload)) Hlen (or_introl eq_refl)) as Hd.
  rewrite app_nil_r in Hd. rewrite Hd
    by (unfold stored_chunk; rewrite length_app, le_bytes_length; lia).
  destruct (decide _) as [|_]; [lia|]. cbn [bind try_except].
  rewrite firstn_all. cbn [default].
  rewrite bool_decide_eq_true_2 by done.
  destruct payload; [simpl in Hlen; lia | done].
Qed.

Lemma stored_mam_round_trip_witness :
  _decompress_mam (stored_mam [Byte.x41; Byte.x42]) = Done (Some [Byte.x41; Byte.x42]).
Proof. apply stored_mam_round_trip. simpl. lia. Defined.

(** ** Formatting the hash, trimming the name *)

Lemma hex_digit_value_digit (d : Z) :
  0 <= d < 16 -> hex_digit_value (hex_digit d) = d.
Proof.
  intros Hd.
  assert (H : d = 0 \/ d = 1 \/ d = 2 \/ d = 3 \/ d = 4 \/ d = 5 \/ d = 6
              \/ d = 7 \/ d = 8 \/ d = 9 \/ d = 10 \/ d = 11 \/ d = 12
              \/ d = 13 \/ d = 14 \/ d = 15) by lia.
  repeat (destruct H as [-> | H]; [reflexivity|]). by subst.
Qed.

(** Digits are produced from the least significant end, in front of what is
    already there. *)
Lemma hex_digits_value (fuel : nat) (n : Z) (acc : string) :
  0 <= n < 16 ^ Z.of_nat fuel -> (0 < fuel)%nat ->
  hex_value 0 (hex_digits fuel n acc) = hex_value n acc.
Proof.
  revert n acc. induction fuel as [|fuel IH]; intros n acc Hn Hfuel; [lia|].
  cbn [hex_digits].
  assert (Hd : 0 <= n mod 16 < 16) by (apply Z.mod_pos_bound; lia).
  pose proof (Z.div_mod n 16 ltac:(lia)) as Hdm.
  destruct (n / 16 =? 0) eqn:Hq.
  - apply Z.eqb_eq in Hq. cbn [hex_value].
    rewrite hex_digit_value_digit by done. f_equal. lia.
  - apply Z.eqb_neq in Hq.
    assert (0 <= n / 16) by (apply Z.div_pos; lia).
    rewrite Nat2Z.inj_succ, Z.pow_succ_r in Hn by lia.
    assert (Hlt : n / 16 < 16 ^ Z.of_nat fuel)
      by (apply Z.div_lt_upper_bound; lia).
    assert (0 < fuel)%nat.
    { destruct fuel; [|lia]. change (16 ^ Z.of_nat 0) with 1 in Hlt. lia. }
    rewrite IH by lia. cbn [hex_value].
    rewrite hex_digit_value_digit by done. f_equal. lia.
Qed.

Lemma hex_digits_length (fuel k : nat) (n : Z) (acc : string) :
  (1 <= k)%nat -> 0 <= n < 16 ^ Z.of_nat k ->
  (String.length (hex_digits fuel n acc) <= String.length acc + k)%nat.
Proof.
  revert k n acc. induction fuel as [|fuel IH]; intros k n acc Hk Hn;
    cbn [hex_digits]; [lia|].
  destruct (n / 16 =? 0) eqn:Hq; [simpl; lia|].
  apply Z.eqb_neq in Hq.
  assert (0 <= n / 16) by (apply Z.div_pos; lia).
  destruct k as [|k]; [lia|].
  rewrite Nat2Z.inj_succ, Z.pow_succ_r in Hn by lia.
  assert (Hlt : n / 16 < 16 ^ Z.of_nat k)
    by (apply Z.div_lt_upper_bound; lia).
  assert (1 <= k)%nat.
  { destruct k; [|lia]. change (16 ^ Z.of_nat 0) with 1 in Hlt. lia. }
  etransitivity; [apply (IH k); [done | lia]|]. simpl. lia.
Qed.

Lemma zeros_length (k : nat) (s : string) :
  String.length (zeros k s) = (k + String.length s)%nat.
Proof. induction k as [|k IH]; simpl; [done|]. by rewrite IH. Qed.

Lemma zeros_value (k : nat) (s : string) :
  hex_value 0 (zeros k s) = hex_value 0 s.
Proof. induction k as [|k IH]; simpl; [done|]. exact IH. Qed.

Lemma format_08X_digits (n : Z) :
  0 <= n ->
  hex_value 0 (format_08X n) = n
  /\ (n < 2 ^ 32 -> String.length (format_08X n) = 8%nat).
Proof.
  intros Hn. unfold format_08X, zfill. split.
  - rewrite zeros_value, hex_digits_value; [done| |lia].
    split; [done|].
    destruct (decide (n = 0)) as [->|Hnz]; [done|].
    destruct (Z.log2_spec n ltac:(lia)) as [_ Hhi].
    pose proof (Z.log2_nonneg n).
    rewrite Nat2Z.inj_succ, Z2Nat.id by lia.
    eapply Z.lt_le_trans; [exact Hhi|].
    apply Z.pow_le_mono_l. lia.
  - intros H32. rewrite zeros_length.
    pose proof (hex_digits_length (S (Z.to_nat (Z.log2 n))) 8 n "" ltac:(lia))
      as Hlen.
    change (16 ^ Z.of_nat 8) with (2 ^ 32) in Hlen.
    specialize (Hlen ltac:(lia)).
    change (String.length ""%string) with 0%nat in Hlen. lia.
Qed.

(** X11.  The hash is written so that it can be read back: the digits of
    [f'{n:08X}'] denote [n], so distinct hashes are written differently, and
    for a 32-bit value there are exactly eight digits. *)
Theorem format_08X_round_trip (n m : Z) :
  0 <= n -> 0 <= m ->
  hex_value 0 (format_08X n) = n
  /\ (format_08X n = format_08X m -> n = m)
  /\ (n < 2 ^ 32 -> String.length (format_08X n) = 8%nat).
Proof.
  intros Hn Hm.
  destruct (format_08X_digits n Hn) as [Hv Hl].
  destruct (format_08X_digits m Hm) as [Hv' _].
  split; [done|]. split; [|done].
  intros Heq. rewrite <- Hv, <- Hv'. by rewrite Heq.
Qed.

Lemma format_08X_round_trip_witness :
  hex_value 0 (format_08X 0xABCD) = 0xABCD
  /\ String.length (format_08X 0xABCD) = 8%nat.
Proof.
  destruct (format_08X_round_trip 0xABCD 0) as (Hv & _ & Hl); [lia..|].
  split; [exact Hv|]. apply Hl. reflexivity.
Defined.

(** X12.  [rstrip('\x00')] removes a run of NUL characters from the end and
    nothing else, and what it returns does not end with NUL. *)
Theorem rstrip_nul_spec (s : string) :
  (exists k, s = rstrip_nul s +:+ nuls k)
  /\ last_char (rstrip_nul s) <> Some "000"%char
  /\ rstrip_nul (rstrip_nul s) = rstrip_nul s.
Proof.
  assert (Hmain : (exists k, s = rstrip_nul s +:+ nuls k)
                  /\ last_char (rstrip_nul s) <> Some "000"%char).
  { induction s as [|c s [[k Hk] Hlast]]; [split; [by exists 0%nat | done]|].
    cbn [rstrip_nul].
    destruct (rstrip_nul s) as [|c' r] eqn:Hr.
    - destruct (decide (c = "000"%char)) as [->|Hc].
      + split; [|done]. exists (S k). simpl. by rewrite Hk at 1.
      + split; [|simpl; congruence]. exists k. simpl. by rewrite Hk at 1.
    - split; [|exact Hlast]. exists k. simpl. by rewrite Hk at 1. }
  split; [apply Hmain|]. split; [apply Hmain|].
  destruct Hmain as [_ Hlast].
  induction (rstrip_nul s) as [|c r IH]; [done|].
  cbn [rstrip_nul].
  destruct r as [|c' r'].
  - simpl in *. destruct (decide (c = "000"%char)); [congruence | done].
  - rewrite IH by exact Hlast. done.
Qed.

(** ** More on the record parser *)

(** A slot that cannot be read is followed by slots that cannot be read. *)
Lemma slot_time_unreadable (data : list byte) (i j : nat) :
  struct_unpack 8 (slice data (0x80 + i * 8) (0x80 + i * 8 + 8)) = Raised ->
  (i <= j)%nat -> slot_time data j = None.
Proof.
  intros Hi Hij. unfold slot_time.
  rewrite (unpack_fail data (0x80 + j * 8) (0x80 + j * 8 + 8) 8); [done..| lia |].
  unfold struct_unpack in Hi. destruct (decide _) as [|Hl]; [discriminate|].
  unfold slice in Hl. rewrite length_take, length_drop in Hl. lia.
Qed.

Lemma execution_times_loop_seq (data : list byte) (k i : nat)
    (acc : list datetime) :
  execution_times_loop data (seq i k) acc
  = Done (acc ++ omap (slot_time data) (seq i k)).
Proof.
  revert i acc. induction k as [|k IH]; intros i acc.
  - simpl. by rewrite app_nil_r.
  - cbn [seq execution_times_loop omap list_omap].
    destruct (struct_unpack 8 _) as [filetime| |] eqn:Hu; cbn [bind].
    + destruct (filetime_to_datetime_done filetime) as [r Hr].
      rewrite Hr. cbn [bind]. rewrite IH.
      unfold slot_time at 2. rewrite Hu, Hr.
      destruct r; [by rewrite <- app_assoc | done].
    + rewrite (slot_time_unreadable data i i Hu) by lia.
      assert (Hnone : omap (slot_time data) (seq (S i) k) = []).
      { clear IH. generalize (S i) (le_S _ _ (le_n i)).
        induction k as [|k IHk]; intros j Hj; [done|].
        cbn [seq omap list_omap].
        rewrite (slot_time_unreadable data i j Hu) by lia.
        apply IHk. lia. }
      by rewrite Hnone, app_nil_r.
    + by apply struct_unpack_fuel in Hu.
Qed.

Section ParserMore.

Variable decode_utf16le : list byte -> string.

(** X9.  The multi-timestamp layouts: when the parser returns a record,
    the buffer holds all eight slots, the early exit of the slot loop is
    not taken, and [execution_times] is the list of the slots that convert
    to a timestamp, in slot order. *)
Theorem multi_slot_times (version : Z) (data : list byte) (pf_path : PfPath)
    (rec : PrefetchRecord) :
  parse_multi decode_utf16le version data pf_path = Done (Some rec) ->
  (0xD4 <= length data)%nat
  /\ (forall i, (i < 8)%nat ->
        exists filetime,
          struct_unpack 8 (slice data (0x80 + i * 8) (0x80 + i * 8 + 8))
          = Done filetime)
  /\ pf_execution_times rec = omap (slot_time data) (seq 0 8).
Proof.
  unfold parse_multi.
  destruct (struct_unpack 4 (slice data 0x4C 0x50)) as [hash| |];
    cbn [bind try_except]; [|discriminate..].
  destruct (struct_unpack 4 (slice data 0xD0 0xD4)) as [run_count| |] eqn:Hrc;
    cbn [bind try_except]; [|discriminate..].
  apply (unpack_Done_length data 0xD0 0xD4 4) in Hrc as [Hlen _]; [|done|lia].
  rewrite execution_times_loop_seq. cbn [bind app].
  destruct (getitem PREFETCH_VERSIONS version) as [name| |];
    cbn [bind try_except]; [|discriminate..].
  intros H.
  apply (f_equal (fun o => match o with
                           | Done (Some r) => pf_execution_times r
                           | _ => []
                           end)) in H.
  cbv beta iota in H. cbn [pf_execution_times] in H. rewrite <- H.
  split; [done|]. split; [|done].
  intros i Hi. eexists. apply unpack_ok; [done | lia].
Qed.

End ParserMore.

Lemma multi_slot_times_witness :
  pf_execution_times unsorted_record
  = omap (slot_time (multi_buffer 26 a_exe 0xABCD [100; 200] 5)) (seq 0 8).
Proof.
  destruct (multi_slot_times low_bytes 26
              (multi_buffer 26 a_exe 0xABCD [100; 200] 5) unsorted_file
              unsorted_record) as (_ & _ & H).
  - vm_compute. reflexivity.
  - exact H.
Defined.

Lemma try_bind_Some {A B : Type} (m : outcome A) (k : A -> outcome (option B))
    (r : B) :
  try_except (bind m k) None = Done (Some r) ->
  exists x, m = Done x /\ try_except (k x) None = Done (Some r).
Proof. destruct m as [x| |]; cbn [bind try_except]; [eauto | discriminate..]. Qed.

Lemma Done_Some_inj {A : Type} (x y : A) : Done (Some x) = Done (Some y) -> x = y.
Proof. by intros [= ->]. Qed.

Lemma exec_name_no_trailing_nul (decode : list byte -> string) (data : list byte) :
  last_char (exec_name_of decode data) <> Some "000"%char.
Proof.
  unfold exec_name_of.
  induction (decode _) as [|c s IH]; [done|].
  cbn [rstrip_nul]. destruct (rstrip_nul s) as [|c' r]; [|exact IH].
  destruct (decide (c = "000"%char)); [done|]. simpl. congruence.
Qed.

Section RecordFields.

Variable decode_utf16le : list byte -> string.

Lemma parse_version_17_fields (data : list byte) (pf_path : PfPath)
    (rec : PrefetchRecord) :
  _parse_version_17 decode_utf16le data pf_path = Done (Some rec) ->
  pf_version rec = 17
  /\ (exists hash, struct_unpack 4 (slice data 0x4C 0x50) = Done hash
                   /\ pf_prefetch_hash rec = format_08X hash)
  /\ struct_unpack 4 (slice data 0x90 0x94) = Done (pf_run_count rec)
  /\ (exists filetime, struct_unpack 8 (slice data 0x78 0x80) = Done filetime
        /\ _filetime_to_datetime filetime = Done (pf_last_execution rec)).
Proof.
  unfold _parse_version_17. intros H.
  apply try_bind_Some in H as (hash & Hhash & H).
  apply try_bind_Some in H as (run_count & Hrc & H).
  apply try_bind_Some in H as (filetime & Hft & H).
  apply try_bind_Some in H as (dt & Hdt & H).
  apply try_bind_Some in H as (name & _ & H).
  cbn [try_except] in H. apply Done_Some_inj in H. subst rec. cbn.
  eauto 10.
Qed.

Lemma parse_version_23_fields (data : list byte) (pf_path : PfPath)
    (rec : PrefetchRecord) :
  _parse_version_23 decode_utf16le data pf_path = Done (Some rec) ->
  pf_version rec = 23
  /\ (exists hash, struct_unpack 4 (slice data 0x4C 0x50) = Done hash
                   /\ pf_prefetch_hash rec = format_08X hash)
  /\ struct_unpack 4 (slice data 0x98 0x9C) = Done (pf_run_count rec)
  /\ (exists filetime, struct_unpack 8 (slice data 0x80 0x88) = Done filetime
        /\ _filetime_to_datetime filetime = Done (pf_last_execution rec)).
Proof.
  unfold _parse_version_23. intros H.
  apply try_bind_Some in H as (hash & Hhash & H).
  apply try_bind_Some in H as (run_count & Hrc & H).
  apply try_bind_Some in H as (filetime & Hft & H).
  apply try_bind_Some in H as (dt & Hdt & H).
  apply try_bind_Some in H as (name & _ & H).
  cbn [try_except] in H. apply Done_Some_inj in H. subst rec. cbn.
  eauto 10.
Qed.

Lemma parse_multi_fields (version : Z) (data : list byte) (pf_path : PfPath)
    (rec : PrefetchRecord) :
  parse_multi decode_utf16le version data pf_path = Done (Some rec) ->
  pf_version rec = version
  /\ (exists hash, struct_unpack 4 (slice data 0x4C 0x50) = Done hash
                   /\ pf_prefetch_hash rec = format_08X hash)
  /\ struct_unpack 4 (slice data 0xD0 0xD4) = Done (pf_run_count rec).
Proof.
  unfold parse_multi. intros H.
  apply try_bind_Some in H as (hash & Hhash & H).
  apply try_bind_Some in H as (run_count & Hrc & H).
  apply try_bind_Some in H as (times & _ & H).
  apply try_bind_Some in H as (name & _ & H).
  cbn [try_except] in H. apply Done_Some_inj in H. subst rec. cbn.
  eauto 10.
Qed.

Lemma parse_header_Some (data : list byte) (pf_path : PfPath)
    (rec : PrefetchRecord) :
  parse_header decode_utf16le data pf_path = Done (Some rec) ->
  exists version,
    struct_unpack 4 (slice data 0 4) = Done version
    /\ ((version = 17
         /\ _parse_version_17 decode_utf16le data pf_path = Done (Some rec))
        \/ (version = 23
            /\ _parse_version_23 decode_utf16le data pf_path = Done (Some rec))
        \/ ((version = 26 \/ version = 30)
            /\ parse_multi decode_utf16le version data pf_path
               = Done (Some rec))).
Proof.
  unfold parse_header. destruct (decide _); [discriminate|].
  destruct (struct_unpack 4 (slice data 0 4)) as [version| |];
    cbn [bind]; [|discriminate..].
  destruct (decide _); [discriminate|].
  exists version. split; [done|].
  destruct (version =? 17) eqn:H17; [apply Z.eqb_eq in H17; auto|].
  destruct (version =? 23) eqn:H23; [apply Z.eqb_eq in H23; auto|].
  destruct (version =? 26) eqn:H26.
  { apply Z.eqb_eq in H26. subst version. right. right. auto. }
  destruct (version =? 30) eqn:H30; [|discriminate].
  apply Z.eqb_eq in H30. subst version. right. right. auto.
Qed.

(** X7.  Field extraction by layout: a record returned for a buffer carries
    the version read from the first four bytes, one of 17, 23, 26 and 30;
    its hash is the 32-bit value at offset 0x4C written as eight
    hexadecimal digits; its run count is the 32-bit value at offset 0x90,
    0x98 or 0xD0 according to the version; and its executable name is the
    decoded name window with trailing NULs removed, so it does not end with
    NUL. *)
Theorem parsed_record_fields (data : list byte) (pf_path : PfPath)
    (rec : PrefetchRecord) :
  parse_header decode_utf16le data pf_path = Done (Some rec) ->
  struct_unpack 4 (slice data 0 4) = Done (pf_version rec)
  /\ (pf_version rec = 17 \/ pf_version rec = 23 \/ pf_version rec = 26
      \/ pf_version rec = 30)
  /\ (exists hash,
        struct_unpack 4 (slice data 0x4C 0x50) = Done hash
        /\ pf_prefetch_hash rec = format_08X hash
        /\ hex_value 0 (pf_prefetch_hash rec) = hash
        /\ String.length (pf_prefetch_hash rec) = 8%nat)
  /\ struct_unpack 4
       (slice data (run_count_offset (pf_version rec))
              (run_count_offset (pf_version rec) + 4))
     = Done (pf_run_count rec)
  /\ 0 <= pf_run_count rec < 2 ^ 32
  /\ pf_executable_name rec = exec_name_of decode_utf16le data
  /\ last_char (pf_executable_name rec) <> Some "000"%char.
Proof.
  intros H.
  destruct (parse_header_spec decode_utf16le data pf_path) as (r & Hr & Hspec).
  rewrite H in Hr. injection Hr as <-.
  destruct (Hspec rec eq_refl) as (_ & Hver & Hname).
  assert (Hfields :
    (pf_version rec = 17 \/ pf_version rec = 23 \/ pf_version rec = 26
     \/ pf_version rec = 30)
    /\ (exists hash, struct_unpack 4 (slice data 0x4C 0x50) = Done hash
                     /\ pf_prefetch_hash rec = format_08X hash)
    /\ struct_unpack 4
         (slice data (run_count_offset (pf_version rec))
                (run_count_offset (pf_version rec) + 4))
       = Done (pf_run_count rec)).
  { apply parse_header_Some in H as (version & _ & [[-> H] | [[-> H] | [Hv H]]]).
    - apply parse_version_17_fields in H as (-> & Hh & Hrc & _). auto.
    - apply parse_version_23_fields in H as (-> & Hh & Hrc & _). auto.
    - apply parse_multi_fields in H as (-> & Hh & Hrc).
      destruct Hv as [-> | ->]; auto 6. }
  destruct Hfields as (Hv & (hash & Hhash & Hfmt) & Hrc).
  split; [done|]. split; [done|].
  destruct (unpack_Done_length data 0x4C 0x50 4 hash eq_refl ltac:(lia) Hhash)
    as [_ Hhr].
  change (256 ^ Z.of_nat 4) with (2 ^ 32) in Hhr.
  destruct (format_08X_digits hash ltac:(lia)) as [Hval Hlen].
  split.
  { exists hash. rewrite Hfmt. repeat split; [done.. | apply Hlen; lia]. }
  split; [done|]. split.
  - destruct (unpack_Done_length data _ _ 4 _ eq_refl ltac:(lia) Hrc) as [_ Hr].
    exact Hr.
  - split; [done|]. rewrite Hname. apply exec_name_no_trailing_nul.
Qed.

End RecordFields.

Lemma parsed_record_fields_witness :
  struct_unpack 4 (slice (multi_buffer 26 a_exe 0xABCD [100; 200] 5) 0xD0 0xD4)
  = Done 5.
Proof.
  destruct (parsed_record_fields low_bytes
              (multi_buffer 26 a_exe 0xABCD [100; 200] 5) unsorted_file
              unsorted_record) as (_ & _ & _ & H & _).
  - vm_compute. reflexivity.
  - exact H.
Defined.

Section Truncation.

Variable decode_utf16le : list byte -> string.

Lemma parse_version_17_threshold (data : list byte) (pf_path : PfPath) :
  exists r, _parse_version_17 decode_utf16le data pf_path = Done r
            /\ (is_Some r <-> (0x94 <= length data)%nat).
Proof.
  unfold _parse_version_17.
  destruct (decide (0x94 <= length data)%nat) as [Hlen|Hlen].
  - rewrite (unpack_ok data 0x4C 0x50 4), (unpack_ok data 0x90 0x94 4),
      (unpack_ok data 0x78 0x80 8) by (done || lia).
    cbn [bind].
    destruct (filetime_to_datetime_done
                (le_value (slice data 0x78 0x80))) as [dt ->].
    cbn [bind]. eexists. split; [reflexivity|]. split; [done | eauto].
  - exists None. split.
    + destruct (struct_unpack 4 (slice data 0x4C 0x50)) as [hash| |] eqn:Hh;
        cbn [bind try_except]; [|done|by apply struct_unpack_fuel in Hh].
      by rewrite (unpack_fail data 0x90 0x94 4) by (done || lia).
    + split; [intros [? [=]] | lia].
Qed.

Lemma parse_version_23_threshold (data : list byte) (pf_path : PfPath) :
  exists r, _parse_version_23 decode_utf16le data pf_path = Done r
            /\ (is_Some r <-> (0x9C <= length data)%nat).
Proof.
  unfold _parse_version_23.
  destruct (decide (0x9C <= length data)%nat) as [Hlen|Hlen].
  - rewrite (unpack_ok data 0x4C 0x50 4), (unpack_ok data 0x98 0x9C 4),
      (unpack_ok data 0x80 0x88 8) by (done || lia).
    cbn [bind].
    destruct (filetime_to_datetime_done
                (le_value (slice data 0x80 0x88))) as [dt ->].
    cbn [bind]. eexists. split; [reflexivity|]. split; [done | eauto].
  - exists None. split.
    + destruct (struct_unpack 4 (slice data 0x4C 0x50)) as [hash| |] eqn:Hh;
        cbn [bind try_except]; [|done|by apply struct_unpack_fuel in Hh].
      by rewrite (unpack_fail data 0x98 0x9C 4) by (done || lia).
    + split; [intros [? [=]] | lia].
Qed.

Lemma parse_multi_threshold (version : Z) (data : list byte) (pf_path : PfPath) :
  version = 26 \/ version = 30 ->
  exists r, parse_multi decode_utf16le version data pf_path = Done r
            /\ (is_Some r <-> (0xD4 <= length data)%nat).
Proof.
  intros Hv. unfold parse_multi.
  destruct (decide (0xD4 <= length data)%nat) as [Hlen|Hlen].
  - rewrite (unpack_ok data 0x4C 0x50 4), (unpack_ok data 0xD0 0xD4 4)
      by (done || lia).
    cbn [bind]. rewrite execution_times_loop_seq. cbn [bind].
    destruct Hv as [-> | ->];
      (eexists; split; [reflexivity|]; split; [done | eauto]).
  - exists None. split.
    + destruct (struct_unpack 4 (slice data 0x4C 0x50)) as [hash| |] eqn:Hh;
        cbn [bind try_except]; [|done|by apply struct_unpack_fuel in Hh].
      by rewrite (unpack_fail data 0xD0 0xD4 4) by (done || lia).
    + split; [intros [? [=]] | lia].
Qed.

(** X8.  Truncation: a buffer stamped with a known version yields a record
    exactly when it is long enough for the last fixed-offset field of its
    layout, 0x94 bytes for version 17, 0x9C for version 23 and 0xD4 for
    versions 26 and 30; a shorter buffer yields [None], without an
    exception. *)
Theorem truncated_record_threshold (data : list byte) (pf_path : PfPath)
    (version : Z) :
  struct_unpack 4 (slice data 0 4) = Done version ->
  version = 17 \/ version = 23 \/ version = 26 \/ version = 30 ->
  exists r, parse_header decode_utf16le data pf_path = Done r
            /\ (is_Some r <-> (required_length version <= length data)%nat).
Proof.
  intros Hver Hv. unfold parse_header.
  destruct (unpack_Done_length data 0 4 4 version eq_refl ltac:(lia) Hver)
    as [Hlen _].
  destruct (decide _) as [|_]; [lia|]. rewrite Hver. cbn [bind].
  destruct (decide _) as [Hnone|_].
  { apply versions_lookup_None in Hnone. lia. }
  destruct Hv as [-> | [-> | [-> | ->]]]; cbn [Z.eqb Pos.eqb].
  - apply parse_version_17_threshold.
  - apply parse_version_23_threshold.
  - apply parse_multi_threshold. by left.
  - apply parse_multi_threshold. by right.
Qed.

(** X10.  A file that wraps an uncompressed prefetch buffer of 4 to 4096
    bytes in a MAM container parses to the same record as the buffer read
    directly; the only difference is that the file is counted as
    compressed. *)
Theorem stored_mam_file_parses_alike (self : Analyzer) (name str : string)
    (buffer : list byte) :
  (4 <= length buffer <= 4096)%nat ->
  take 4 buffer <> MAM_SIGNATURE ->
  let raw := {| path_name := name; path_str := str;
                path_read := Some buffer |} in
  let wrapped := {| path_name := name; path_str := str;
                    path_read := Some (stored_mam buffer) |} in
  exists r,
    _parse_prefetch_file decode_utf16le self raw = (Done r, self)
    /\ _parse_prefetch_file decode_utf16le self wrapped
       = (Done r, count_compressed self).
Proof.
  intros Hlen Hsig raw wrapped.
  destruct (parse_header_spec decode_utf16le buffer raw) as (r & Hr & _).
  exists r. unfold _parse_prefetch_file. cbn [path_read raw wrapped]. split.
  - destruct (decide _) as [|_]; [done|]. by rewrite Hr.
  - destruct (decide _) as [_|Hns];
      [|by destruct Hns; apply stored_mam_parts].
    assert (Hmam : _decompress_mam (stored_mam buffer) = Done (Some buffer)).
    { destruct (stored_mam_parts buffer) as (Hs & Hsize & Hpay).
      unfold _decompress_mam. destruct (decide _) as [|_]; [done|].
      rewrite Hsize, Hpay.
      assert (Hu : struct_unpack 4 (le_bytes 4 (Z.of_nat (length buffer)))
                   = Done (Z.of_nat (length buffer))).
      { unfold struct_unpack. rewrite le_bytes_length.
        destruct (decide _); [|done]. f_equal.
        rewrite le_value_bytes by lia. apply Z.mod_small.
        change (256 ^ Z.of_nat 4) with 4294967296. lia. }
      rewrite Hu. cbn [bind]. rewrite Nat2Z.id.
      unfold _lznt1_decompress.
      pose proof (stream_loop_stored buffer [] (length buffer)
                    (length (stored_chunk buffer)) ltac:(lia)
                    (or_introl eq_refl)) as Hd.
      rewrite app_nil_r in Hd. rewrite Hd
        by (unfold stored_chunk; rewrite length_app, le_bytes_length; lia).
      destruct (decide _) as [|_]; [lia|]. cbn [bind try_except].
      rewrite firstn_all. cbn [default].
      rewrite bool_decide_eq_true_2 by done.
      destruct buffer; [simpl in Hlen; lia | done]. }
    rewrite Hmam.
    assert (truthy (Some buffer) = true) as ->
      by (destruct buffer; [simpl in Hlen; lia | done]).
    cbn [negb]. change (default [] (Some buffer)) with buffer.
    destruct (parse_header_spec decode_utf16le buffer wrapped) as (r' & Hr' & _).
    assert (Hsame : parse_header decode_utf16le buffer wrapped
                    = parse_header decode_utf16le buffer raw) by reflexivity.
    by rewrite Hsame, Hr.
Qed.

End Truncation.

Lemma truncated_record_threshold_witness :
  parse_header low_bytes (le_bytes 4 17) truncated_file = Done None.
Proof.
  destruct (truncated_record_threshold low_bytes (le_bytes 4 17)
              truncated_file 17) as (r & Hr & Hiff).
  - reflexivity.
  - by left.
  - rewrite Hr. f_equal. destruct r as [rec|]; [|done].
    assert (Hs : is_Some (Some rec)) by eauto.
    apply Hiff in Hs. vm_compute in Hs. by destruct Hs.
Defined.

Lemma stored_mam_file_parses_alike_witness :
  exists r,
    _parse_prefetch_file low_bytes init
      {| path_name := "V99.pf"; path_str := "V99.pf";
         path_read := Some (le_bytes 4 99) |} = (Done r, init)
    /\ _parse_prefetch_file low_bytes init
         {| path_name := "V99.pf"; path_str := "V99.pf";
            path_read := Some (stored_mam (le_bytes 4 99)) |}
       = (Done r, count_compressed init).
Proof.
  apply (stored_mam_file_parses_alike low_bytes init "V99.pf" "V99.pf"
           (le_bytes 4 99)).
  - simpl. lia.
  - vm_compute. discriminate.
Defined.

(** ** A whole run of the analyzer *)

Lemma add_to_timeline_entries (self : Analyzer) (pf_data : PrefetchRecord) :
  execution_timeline (_add_to_timeline self pf_data)
  = execution_timeline self ++ (entry_of pf_data <$> pf_execution_times pf_data).
Proof.
  unfold _add_to_timeline. cbn [execution_timeline].
  generalize (execution_timeline self).
  induction (pf_execution_times pf_data) as [|t ts IH]; intros timeline; simpl.
  - by rewrite app_nil_r.
  - rewrite IH. by rewrite <- app_assoc.
Qed.

Lemma new_program_summarises (r : PrefetchRecord) :
  pf_last_execution r = head (pf_execution_times r) ->
  summarises (new_program r) (pf_executable_name r) [r].
Proof.
  intros Hhead. unfold summarises, new_program; cbn.
  split; [done|]. split; [done|]. split; [done|]. split.
  { intros t. split.
    - intros Ht. exists r. split; [apply list_elem_of_here | done].
    - intros (r' & Hr' & Ht). by apply list_elem_of_singleton in Hr' as ->. }
  split.
  { intros r' Hr'. apply list_elem_of_singleton in Hr' as ->. lia. }
  split; [exists r; split; [apply list_elem_of_here | done]|].
  split; [done|]. rewrite Hhead.
  split; [by destruct (pf_execution_times r)|].
  split; [|lia].
  intros t Ht. destruct (pf_execution_times r) as [|t' ts]; [done|].
  injection Ht as ->. apply list_elem_of_here.
Qed.

Lemma update_program_summarises (p : ProgramAggregate) (name : string)
    (rs : list PrefetchRecord) (r : PrefetchRecord) :
  summarises p name rs ->
  summarises (update_program p r) name (rs ++ [r]).
Proof.
  intros (Hname & Hfiles & Hver & Htimes & Hle & (r0 & Hr0 & Hmax) & Hfirst
          & Hnone & Hlast & _).
  assert (Hset : forall t, t ∈ prog_execution_times (update_program p r)
                           <-> exists r', r' ∈ rs ++ [r]
                                          /\ t ∈ pf_execution_times r').
  { intros t. cbn. rewrite merge_times_elem, Htimes. split.
    - intros [(r' & Hr' & Ht) | Ht].
      + exists r'. split; [apply elem_of_app; by left | done].
      + exists r. split; [apply elem_of_app; right; apply list_elem_of_here|done].
    - intros (r' & Hr' & Ht). apply elem_of_app in Hr' as [Hr' | Hr'].
      + left. by exists r'.
      + apply list_elem_of_singleton in Hr' as ->. by right. }
  destruct (update_program_bounds p r) as [Hl Hf].
  split; [done|]. split.
  { cbn. by rewrite Hfiles, fmap_app. }
  split.
  { rewrite fmap_app. cbn [prog_version update_program].
    destruct (pf_version <$> rs); [discriminate | done]. }
  split; [exact Hset|]. split.
  { intros r' Hr'. cbn. apply elem_of_app in Hr' as [Hr' | Hr'].
    - specialize (Hle r' Hr'). lia.
    - apply list_elem_of_singleton in Hr' as ->. lia. }
  split.
  { cbn. destruct (Z.max_spec (prog_run_count p) (pf_run_count r))
      as [[_ ->] | [_ ->]].
    - exists r. split; [apply elem_of_app; right; apply list_elem_of_here|done].
    - exists r0. split; [apply elem_of_app; by left | done]. }
  assert (Hempty : prog_execution_times (update_program p r) = [] ->
                   prog_execution_times p = []).
  { cbn. destruct (merge_times_prefix (pf_execution_times r)
                     (prog_execution_times p)) as [added ->].
    intros H. by apply app_eq_nil in H as [? _]. }
  split.
  { rewrite Hf. destruct (prog_execution_times (update_program p r)) eqn:Ht;
      [|done].
    cbn [times_min]. rewrite Hfirst, Hempty; done. }
  split.
  { rewrite Hl. destruct (prog_execution_times (update_program p r)) eqn:Ht.
    - cbn [times_max]. rewrite Hnone. split; [done|]. intros _. by apply Hempty.
    - cbn [times_max]. split; discriminate. }
  split.
  { intros t. rewrite Hl.
    destruct (prog_execution_times (update_program p r)) as [|u us] eqn:Ht.
    - cbn [times_max]. intros Hp. apply Hlast in Hp.
      rewrite Hempty in Hp by done. by apply elem_of_nil in Hp.
    - cbn [times_max]. intros [= <-]. apply py_max_spec. }
  intros _. rewrite Hl.
  destruct (prog_execution_times (update_program p r)) as [|u us] eqn:Ht;
    [|done].
  cbn [times_max]. apply Hnone. by apply Hempty.
Qed.

Lemma records_of_snoc (name : string) (l : list PrefetchRecord)
    (r : PrefetchRecord) :
  records_of name (l ++ [r])
  = records_of name l ++ (if decide (pf_executable_name r = name) then [r] else []).
Proof. unfold records_of. by rewrite filter_app. Qed.

(** Parsing a record, appending it, and adding it to the timeline and to
    the programs keeps the analyzer consistent. *)
Lemma consistent_step (self : Analyzer) (r : PrefetchRecord) :
  pf_last_execution r = head (pf_execution_times r) ->
  consistent self ->
  consistent (_add_to_programs (_add_to_timeline (append_record self r) r) r).
Proof.
  intros Hhead (Htl & Hheads & Hprogs). unfold consistent.
  cbn [_add_to_programs prefetch_files programs execution_timeline].
  rewrite add_to_timeline_entries.
  cbn [append_record prefetch_files execution_timeline
       _add_to_timeline programs].
  split.
  { unfold timeline_of. rewrite bind_app, bind_singleton. by rewrite Htl. }
  split.
  { intros r' Hr'. apply elem_of_app in Hr' as [Hr' | Hr']; [by apply Hheads|].
    by apply list_elem_of_singleton in Hr' as ->. }
  intros name. rewrite records_of_snoc.
  destruct (decide (pf_executable_name r = name)) as [<-|Hne].
  - rewrite add_program_lookup. specialize (Hprogs (pf_executable_name r)).
    destruct (programs self !! pf_executable_name r) as [p|].
    + by apply update_program_summarises.
    + rewrite Hprogs. by apply new_program_summarises.
  - rewrite add_program_lookup_ne by done. rewrite app_nil_r. apply Hprogs.
Qed.

Section RunFacts.

Variable decode_utf16le : list byte -> string.

(** What one file does to the analyzer. *)
Lemma analyze_file_effect (self : Analyzer) (pf_path : PfPath) :
  exists self',
    analyze_file decode_utf16le self pf_path = (Done tt, self')
    /\ (compressed_count self <= compressed_count self'
        <= compressed_count self + 1)
    /\ (exists failed,
          decompression_failed self' = decompression_failed self ++ failed
          /\ Z.of_nat (length failed)
             <= compressed_count self' - compressed_count self)
    /\ ((prefetch_files self' = prefetch_files self
         /\ programs self' = programs self
         /\ execution_timeline self' = execution_timeline self)
        \/ (exists rec,
              record_ok pf_path rec
              /\ decompression_failed self' = decompression_failed self
              /\ prefetch_files self' = prefetch_files self ++ [rec]
              /\ programs self' = add_program (programs self) rec
              /\ execution_timeline self'
                 = execution_timeline self
                   ++ (entry_of rec <$> pf_execution_times rec)
              /\ (consistent self -> consistent self'))).
Proof.
  assert (Hparse : exists r self1,
    _parse_prefetch_file decode_utf16le self pf_path = (Done r, self1)
    /\ prefetch_files self1 = prefetch_files self
    /\ programs self1 = programs self
    /\ execution_timeline self1 = execution_timeline self
    /\ (compressed_count self <= compressed_count self1
        <= compressed_count self + 1)
    /\ (exists failed,
          decompression_failed self1 = decompression_failed self ++ failed
          /\ Z.of_nat (length failed)
             <= compressed_count self1 - compressed_count self
          /\ (is_Some r -> failed = []))
    /\ (forall rec, r = Some rec -> record_ok pf_path rec)).
  { unfold _parse_prefetch_file.
    destruct (path_read pf_path) as [data|].
    2:{ exists None, self. repeat (split; [done || lia|]).
        split; [|done]. exists []. rewrite app_nil_r. split; [done|].
        split; [simpl; lia | done]. }
    destruct (decide (take 4 data = MAM_SIGNATURE)) as [Hsig|Hsig].
    - destruct (decompress_mam_done data) as (d & -> & _).
      destruct (truthy d); cbn [negb].
      + destruct (parse_header_spec decode_utf16le (default [] d) pf_path)
          as (r & -> & Hr).
        exists r, (count_compressed self). cbn [try_except].
        split; [done|]. cbn [count_compressed compressed_count prefetch_files
          programs execution_timeline decompression_failed].
        repeat (split; [done || lia|]).
        split; [|intros rec ->; by apply Hr].
        exists []. rewrite app_nil_r. split; [done|]. split; [simpl; lia | done].
      + exists None, (record_failure (count_compressed self) (path_name pf_path)).
        split; [done|]. cbn [record_failure count_compressed compressed_count
          prefetch_files programs execution_timeline decompression_failed].
        repeat (split; [done || lia|]).
        split; [|done]. exists [path_name pf_path]. split; [done|].
        split; [simpl; lia | by intros [? [=]]].
    - destruct (parse_header_spec decode_utf16le data pf_path) as (r & -> & Hr).
      exists r, self. cbn [try_except]. repeat (split; [done || lia|]).
      split; [|intros rec ->; by apply Hr].
      exists []. rewrite app_nil_r. split; [done|]. split; [simpl; lia | done]. }
  destruct Hparse as (r & self1 & Hp & Hf & Hpr & Htl & Hcc
                      & (failed & Hdf & Hlen & Hsome) & Hok).
  rewrite (analyze_file_of_parse _ _ _ _ _ Hp).
  destruct r as [rec|].
  - eexists. split; [reflexivity|].
    cbn [_add_to_programs compressed_count decompression_failed
         _add_to_timeline append_record].
    split; [done|]. split.
    { exists failed. done. }
    right. exists rec. split; [by apply Hok|].
    rewrite (Hsome ltac:(eauto)), app_nil_r in Hdf.
    split; [done|].
    split; [by rewrite <- Hf|]. split; [by rewrite <- Hpr|]. split.
    { rewrite <- Htl.
      apply (add_to_timeline_entries (append_record self1 rec) rec). }
    intros Hcons.
    destruct (Hok rec eq_refl) as (Hhead & _).
    apply (consistent_step self1 rec Hhead).
    destruct Hcons as (H1 & H2 & H3). unfold consistent.
    rewrite Hf, Hpr, Htl. done.
  - exists self1. split; [done|]. split; [done|]. split.
    { exists failed. done. }
    left. done.
Qed.

Lemma add_program_size (progs : gmap string ProgramAggregate)
    (r : PrefetchRecord) :
  (size progs <= size (add_program progs r) <= S (size progs))%nat.
Proof.
  unfold add_program.
  destruct (progs !! pf_executable_name r) as [p|] eqn:Hp.
  - rewrite map_size_insert_Some by eauto. lia.
  - rewrite map_size_insert_None by done. lia.
Qed.

(** What a list of files does to the analyzer. *)
Lemma analyze_files_effect (pf_files : list PfPath) (self : Analyzer) :
  exists self' failed recs,
    analyze_files decode_utf16le self pf_files = (Done tt, self')
    /\ decompression_failed self' = decompression_failed self ++ failed
    /\ prefetch_files self' = prefetch_files self ++ recs
    /\ execution_timeline self' = execution_timeline self ++ timeline_of recs
    /\ Z.of_nat (length failed) <= compressed_count self' - compressed_count self
    /\ compressed_count self' - compressed_count self
       <= Z.of_nat (length pf_files)
    /\ (length recs + length failed <= length pf_files)%nat
    /\ (size (programs self') <= size (programs self) + length recs)%nat
    /\ (consistent self -> consistent self').
Proof.
  revert self. induction pf_files as [|pf_file pf_files IH]; intros self.
  - exists self, [], []. cbn [analyze_files]. rewrite !app_nil_r.
    cbn [length timeline_of]. rewrite Nat.add_0_r.
    split; [done|]. split; [done|]. split; [done|]. split; [done|].
    split; [lia|]. split; [lia|]. split; [lia|]. split; [lia|]. done.
  - cbn [analyze_files].
    destruct (analyze_file_effect self pf_file)
      as (self1 & -> & Hcc & (failed1 & Hdf1 & Hlen1) & Hcase).
    destruct (IH self1) as (self2 & failed2 & recs2 & -> & Hdf2 & Hpf2 & Htl2
                            & Hlen2 & Hcc2 & Hn2 & Hsz2 & Hcons2).
    destruct Hcase as [(Hpf1 & Hpr1 & Htl1) | (rec & _ & Hdf1' & Hpf1 & Hpr1
                                               & Htl1 & Hcons1)].
    + exists self2, (failed1 ++ failed2), recs2.
      rewrite Hdf2, Hdf1, Hpf2, Hpf1, Htl2, Htl1, Hpr1 in *.
      rewrite <- app_assoc, length_app. cbn [length].
      split; [done|]. split; [done|]. split; [done|]. split; [done|].
      split; [lia|]. split; [lia|]. split; [lia|]. split; [lia|].
      intros Hc. apply Hcons2. destruct Hc as (H1 & H2 & H3).
      unfold consistent. by rewrite Hpf1, Hpr1, Htl1.
    + exists self2, failed2, (rec :: recs2).
      assert (failed1 = []) as ->.
      { rewrite Hdf1 in Hdf1'.
        rewrite <- (app_nil_r (decompression_failed self)) in Hdf1' at 2.
        by apply app_inv_head in Hdf1'. }
      rewrite app_nil_r in Hdf1.
      pose proof (add_program_size (programs self) rec) as Hsz1.
      rewrite <- Hpr1 in Hsz1.
      rewrite Hdf2, Hdf1, Hpf2, Hpf1, Htl2, Htl1.
      rewrite <- !app_assoc. cbn [length app].
      split; [done|]. split; [done|]. split; [done|].
      split; [by f_equal|].
      simpl in Hlen1.
      split; [lia|]. split; [lia|]. split; [lia|]. split; [lia|]. auto.
Qed.

(** X13.  A run over any list of files completes: it returns the programs
    (the empty dictionary, with nothing changed, for an empty list), and its
    statistics add up: the failed decompressions are at most the compressed
    files, which are at most the files; parsed and failed files together
    are at most the files; the programs are at most the parsed files; and
    the timeline has one entry per execution time of the parsed files. *)
Theorem analysis_statistics (pf_files : list PfPath) :
  exists progs self',
    analyze decode_utf16le init pf_files = (Done progs, self')
    /\ progs = programs self'
    /\ (pf_files = [] -> self' = init)
    /\ (Z.of_nat (decompression_failures (get_statistics self'))
        <= compressed_files (get_statistics self')
        <= Z.of_nat (length pf_files))
    /\ (total_prefetch_files (get_statistics self')
        + decompression_failures (get_statistics self')
        <= length pf_files)%nat
    /\ (total_programs (get_statistics self')
        <= total_prefetch_files (get_statistics self'))%nat
    /\ timeline_entries (get_statistics self')
       = length (timeline_of (prefetch_files self')).
Proof.
  destruct pf_files as [|pf_file pf_files].
  { exists ∅, init. cbn.
    split; [done|]. split; [done|]. split; [done|]. split; [lia|].
    split; [lia|]. split; [|done]. rewrite map_size_empty. lia. }
  unfold analyze.
  destruct (analyze_files_effect (pf_file :: pf_files) init)
    as (self' & failed & recs & -> & Hdf & Hpf & Htl & Hlen & Hcc & Hn & Hsz & _).
  cbn [init decompression_failed prefetch_files execution_timeline
       compressed_count programs app] in *.
  rewrite map_size_empty in Hsz.
  eexists _, _. split; [reflexivity|].
  cbn [get_statistics programs prefetch_files compressed_count
       decompression_failed execution_timeline total_programs
       total_prefetch_files compressed_files decompression_failures
       timeline_entries].
  rewrite Hdf, Hpf.
  split; [done|]. split; [done|].
  split; [lia|]. split; [lia|]. split; [simpl in Hsz; lia|].
  rewrite <- Htl. clear.
  generalize (execution_timeline self'). intros l.
  induction l as [|x l IH]; [done|]. cbn [sort_timeline foldr].
  fold (sort_timeline l).
  assert (Hins : forall y k, length (insert_desc y k) = S (length k)).
  { clear. intros y k. induction k as [|z k IHk]; [done|].
    cbn [insert_desc]. destruct (_ <? _); simpl; [by rewrite IHk | done]. }
  rewrite Hins, IH. done.
Qed.

End RunFacts.

(** ** Sorting the timeline *)

Lemma insert_desc_perm (x : TimelineEntry) (l : list TimelineEntry) :
  insert_desc x l ≡ₚ x :: l.
Proof.
  induction l as [|y l IH]; [done|]. cbn [insert_desc].
  destruct (_ <? _); [|done]. rewrite IH. apply Permutation_swap.
Qed.

Lemma insert_desc_descending (x : TimelineEntry) (l : list TimelineEntry) :
  descending l -> descending (insert_desc x l).
Proof.
  induction l as [|y l IH]; intros Hl; [simpl; split; [|done]|].
  { intros z Hz. by apply elem_of_nil in Hz. }
  destruct Hl as [Hy Hl]. cbn [insert_desc].
  destruct (tl_timestamp x <? tl_timestamp y) eqn:Hlt.
  - apply Z.ltb_lt in Hlt. split; [|by apply IH].
    intros z Hz. rewrite insert_desc_perm in Hz.
    apply elem_of_cons in Hz as [-> | Hz]; [lia | by apply Hy].
  - apply Z.ltb_ge in Hlt. split; [|by split].
    intros z Hz. apply elem_of_cons in Hz as [-> | Hz]; [done|].
    specialize (Hy z Hz). lia.
Qed.

Lemma sort_timeline_sorts (l : list TimelineEntry) :
  descending (sort_timeline l) /\ sort_timeline l ≡ₚ l.
Proof.
  induction l as [|x l [IHd IHp]]; [done|].
  cbn [sort_timeline foldr]. fold (sort_timeline l). split.
  - by apply insert_desc_descending.
  - rewrite insert_desc_perm. by rewrite IHp.
Qed.

(** ** The set of merged times *)

(** X17.  Merging the times of a record into those of an aggregate keeps
    the existing list in place and appends, once each and in order of first
    appearance, the times that were not there; a list without duplicates
    stays without duplicates. *)
Theorem merge_times_spec (new old : list datetime) :
  exists added,
    merge_times old new = old ++ added
    /\ NoDup added
    /\ (forall t, t ∈ added <-> t ∈ new /\ t ∉ old)
    /\ (NoDup old -> NoDup (merge_times old new)).
Proof.
  assert (Hmain : exists added,
    merge_times old new = old ++ added
    /\ NoDup added
    /\ (forall t, t ∈ added <-> t ∈ new /\ t ∉ old)).
  { unfold merge_times. revert old.
    induction new as [|a new IH]; intros old; cbn [foldl].
    - exists []. rewrite app_nil_r. split; [done|]. split; [constructor|].
      intros t. split; [by intros ?%elem_of_nil | by intros [?%elem_of_nil _]].
    - destruct (decide (a ∈ old)) as [Ha|Ha].
      + destruct (IH old) as (added & -> & Hnd & Hmem).
        exists added. split; [done|]. split; [done|].
        intros t. rewrite Hmem, elem_of_cons. split; [tauto|].
        intros [[-> | Ht] Hn]; [done | tauto].
      + destruct (IH (old ++ [a])) as (added & -> & Hnd & Hmem).
        exists (a :: added). rewrite <- app_assoc. split; [done|]. split.
        * constructor; [|done]. rewrite Hmem. intros [_ Hn].
          apply Hn, elem_of_app. right. apply list_elem_of_here.
        * intros t. rewrite !elem_of_cons, Hmem, elem_of_app,
            list_elem_of_singleton.
          destruct (decide (t = a)) as [->|]; tauto. }
  destruct Hmain as (added & Heq & Hnd & Hmem).
  exists added. split; [done|]. split; [done|]. split; [done|].
  intros Hold. rewrite Heq. apply NoDup_app. split; [done|]. split; [|done].
  intros t Ht Ha. apply Hmem in Ha as [_ Hn]. done.
Qed.

Lemma merge_times_spec_witness :
  NoDup (merge_times [10; 20] [40; 20; 40; 30]).
Proof.
  destruct (merge_times_spec [40; 20; 40; 30] [10; 20]) as (_ & _ & _ & _ & H).
  apply H. apply NoDup_cons_2; [|apply NoDup_singleton].
  intros Hin. apply list_elem_of_singleton in Hin. discriminate Hin.
Defined.

(** ** What a run leaves in the analyzer *)

Section RunResults.

Variable decode_utf16le : list byte -> string.

(** After a run from a fresh analyzer, the parsed files and the programs
    are those of the loop over the files, the timeline is the sorted
    timeline of that loop, and the loop leaves the analyzer consistent. *)
Lemma analyze_result (pf_files : list PfPath) :
  exists looped,
    consistent looped
    /\ prefetch_files (snd (analyze decode_utf16le init pf_files))
       = prefetch_files looped
    /\ programs (snd (analyze decode_utf16le init pf_files)) = programs looped
    /\ execution_timeline (snd (analyze decode_utf16le init pf_files))
       = sort_timeline (execution_timeline looped).
Proof.
  assert (Hinit : consistent init).
  { split; [done|]. split; [by intros r ?%elem_of_nil|]. intros name.
    cbn [init programs]. by rewrite lookup_empty. }
  destruct pf_files as [|pf_file pf_files]; [by exists init|].
  unfold analyze.
  destruct (analyze_files_effect decode_utf16le (pf_file :: pf_files) init)
    as (self' & failed & recs & -> & _ & _ & _ & _ & _ & _ & _ & Hcons).
  exists self'. split; [by apply Hcons|]. done.
Qed.

(** X14.  After a run, the timeline is in non-increasing order of timestamp
    and holds, up to order, exactly one entry for each execution time of
    each parsed file, carrying that file's executable name and file name. *)
Theorem analysis_timeline_sorted (pf_files : list PfPath) :
  descending (execution_timeline (snd (analyze decode_utf16le init pf_files)))
  /\ execution_timeline (snd (analyze decode_utf16le init pf_files))
     ≡ₚ timeline_of (prefetch_files (snd (analyze decode_utf16le init pf_files))).
Proof.
  destruct (analyze_result pf_files) as (looped & (Htl & _) & Hpf & _ & Hsort).
  rewrite Hsort, Hpf, <- Htl. apply sort_timeline_sorts.
Qed.

(** X15.  After a run, the programs are keyed by exactly the executable
    names of the parsed files, and the aggregate of a name sums up the
    parsed files of that name: it lists their file names in parsing order,
    has the version of the first of them, the set of all their execution
    times, and the greatest of their run counts. *)
Theorem aggregates_summarise_records (pf_files : list PfPath) (name : string) :
  let self' := snd (analyze decode_utf16le init pf_files) in
  let rs := records_of name (prefetch_files self') in
  (programs self' !! name = None <-> rs = [])
  /\ forall p, programs self' !! name = Some p ->
       prog_name p = name
       /\ prog_prefetch_files p = pf_filename <$> rs
       /\ head (pf_version <$> rs) = Some (prog_version p)
       /\ (forall t, t ∈ prog_execution_times p
                     <-> exists r, r ∈ rs /\ t ∈ pf_execution_times r)
       /\ (forall r, r ∈ rs -> pf_run_count r <= prog_run_count p)
       /\ (exists r, r ∈ rs /\ prog_run_count p = pf_run_count r).
Proof.
  intros self' rs. subst self' rs.
  destruct (analyze_result pf_files) as (looped & (_ & _ & Hprogs) & -> & -> & _).
  specialize (Hprogs name).
  destruct (programs looped !! name) as [p|].
  - destruct Hprogs as (H1 & H2 & H3 & H4 & H5 & H6 & _). split.
    + split; [discriminate|]. intros Hnil.
      destruct H6 as (r & Hr & _). rewrite Hnil in Hr.
      by apply elem_of_nil in Hr.
    + intros p' [= <-]. done.
  - split; [done | discriminate].
Qed.

(** X16.  After a run, every aggregate has [first_execution] equal to the
    minimum of its execution times (absent exactly when there are none);
    its [last_execution] is absent exactly when there are none and is
    otherwise one of them; and once two or more files were merged,
    [last_execution] is their maximum. *)
Theorem aggregate_bounds_after_run (pf_files : list PfPath) (name : string)
    (p : ProgramAggregate) :
  programs (snd (analyze decode_utf16le init pf_files)) !! name = Some p ->
  prog_first_execution p = times_min (prog_execution_times p)
  /\ (forall t, t ∈ prog_execution_times p ->
        exists first, prog_first_execution p = Some first
                      /\ first ∈ prog_execution_times p /\ first <= t)
  /\ (prog_last_execution p = None <-> prog_execution_times p = [])
  /\ (forall t, prog_last_execution p = Some t -> t ∈ prog_execution_times p)
  /\ ((2 <= length (prog_prefetch_files p))%nat ->
      prog_last_execution p = times_max (prog_execution_times p)
      /\ forall t, t ∈ prog_execution_times p ->
           exists last, prog_last_execution p = Some last /\ t <= last).
Proof.
  destruct (analyze_result pf_files) as (looped & (_ & _ & Hprogs) & _ & -> & _).
  intros Hp. specialize (Hprogs name). rewrite Hp in Hprogs.
  destruct Hprogs as (_ & Hfiles & _ & _ & _ & _ & Hfirst & Hnone & Hlast & Hmax).
  split; [done|]. split.
  { intros t Ht. rewrite Hfirst.
    destruct (prog_execution_times p) as [|u us]; [by apply elem_of_nil in Ht|].
    destruct (py_min_spec us u) as [Hin Hle].
    exists (py_min u us). split; [done|]. split; [done|]. by apply Hle. }
  split; [done|]. split; [done|].
  intros Hlen. rewrite Hfiles, length_fmap in Hlen.
  specialize (Hmax Hlen). split; [done|].
  intros t Ht. rewrite Hmax.
  destruct (prog_execution_times p) as [|u us]; [by apply elem_of_nil in Ht|].
  destruct (py_max_spec us u) as [_ Hle].
  exists (py_max u us). split; [done|]. by apply Hle.
Qed.

(** X18.  The analyzer only grows: analyzing one more file keeps the parsed
    files, the timeline and the failure list as prefixes of the new ones,
    never lowers the count of compressed files, and keeps every program,
    with its name and version, a run count that does not decrease, and its
    files and execution times as prefixes of the new ones. *)
Theorem analyze_file_append_only (self : Analyzer) (pf_path : PfPath) :
  let self' := snd (analyze_file decode_utf16le self pf_path) in
  prefetch_files self `prefix_of` prefetch_files self'
  /\ execution_timeline self `prefix_of` execution_timeline self'
  /\ decompression_failed self `prefix_of` decompression_failed self'
  /\ compressed_count self <= compressed_count self'
  /\ forall name p,
       programs self !! name = Some p ->
       exists p',
         programs self' !! name = Some p'
         /\ prog_name p' = prog_name p
         /\ prog_version p' = prog_version p
         /\ prog_run_count p <= prog_run_count p'
         /\ prog_prefetch_files p `prefix_of` prog_prefetch_files p'
         /\ prog_execution_times p `prefix_of` prog_execution_times p'.
Proof.
  intros self'. subst self'.
  destruct (analyze_file_effect decode_utf16le self pf_path)
    as (self' & -> & Hcc & (failed & Hdf & _) & Hcase).
  cbn [snd].
  assert (Hfail : decompression_failed self `prefix_of` decompression_failed self')
    by (rewrite Hdf; by apply prefix_app_r).
  destruct Hcase as [(-> & -> & ->) | (rec & _ & _ & -> & -> & -> & _)].
  - split; [done|]. split; [done|]. split; [done|]. split; [lia|].
    intros name p Hp. exists p. done.
  - split; [by apply prefix_app_r|]. split; [by apply prefix_app_r|].
    split; [done|]. split; [lia|].
    intros name p Hp.
    destruct (decide (name = pf_executable_name rec)) as [->|Hne].
    + exists (update_program p rec).
      rewrite add_program_lookup, Hp. split; [done|].
      cbn. split; [done|]. split; [done|]. split; [lia|].
      split; [by apply prefix_app_r|].
      destruct (merge_times_prefix (pf_execution_times rec)
                  (prog_execution_times p)) as [added ->].
      by apply prefix_app_r.
    + exists p. by rewrite add_program_lookup_ne.
Qed.

End RunResults.

Lemma aggregate_bounds_after_run_witness :
  exists p,
    programs (snd (analyze low_bytes init [unsorted_file; later_file]))
      !! "A.EXE"%string = Some p
    /\ prog_first_execution p = times_min (prog_execution_times p)
    /\ prog_last_execution p = times_max (prog_execution_times p).
Proof.
  eexists. split; [vm_compute; reflexivity|].
  match goal with
  | |- context [prog_first_execution ?p] =>
    destruct (aggregate_bounds_after_run low_bytes
                [unsorted_file; later_file] "A.EXE" p)
      as (Hfirst & _ & _ & _ & Hlast)
  end.
  - vm_compute. reflexivity.
  - split; [exact Hfirst|]. apply Hlast. simpl. lia.
Defined.

Lemma analysis_statistics_witness :
  exists progs self',
    analyze low_bytes init [] = (Done progs, self') /\ self' = init.
Proof.
  destruct (analysis_statistics low_bytes []) as (progs & self' & Hrun & _ & H & _).
  exists progs, self'. split; [exact Hrun | exact (H eq_refl)].
Defined.

Lemma aggregates_summarise_records_witness :
  exists p,
    programs (snd (analyze low_bytes init [unsorted_file; later_file]))
      !! "A.EXE"%string = Some p
    /\ prog_prefetch_files p
       = pf_filename
           <$> records_of "A.EXE"
                 (prefetch_files
                    (snd (analyze low_bytes init [unsorted_file; later_file]))).
Proof.
  eexists. split; [vm_compute; reflexivity|].
  match goal with
  | |- prog_prefetch_files ?p = _ =>
    destruct (aggregates_summarise_records low_bytes
                [unsorted_file; later_file] "A.EXE") as [_ H];
    destruct (H p) as (_ & Hfiles & _)
  end.
  - vm_compute. reflexivity.
  - exact Hfiles.
Defined.

Lemma analyze_file_append_only_witness :
  exists p',
    programs (snd (analyze_file low_bytes
                     (snd (analyze_file low_bytes init unsorted_file))
                     later_file)) !! "A.EXE"%string = Some p'
    /\ prog_version p' = 26.
Proof.
  destruct (analyze_file_append_only low_bytes
              (snd (analyze_file low_bytes init unsorted_file)) later_file)
    as (_ & _ & _ & _ & H).
  destruct (H "A.EXE"%string (new_program unsorted_record))
    as (p' & Hp' & _ & Hv & _).
  - vm_compute. reflexivity.
  - exists p'. split; [exact Hp' | exact Hv].
Defined.
